(** * A policy engine for request lifecycles (lib/index.js)

    Shallow embedding of the policy registry, the apply-point resolver,
    the per-stage extension handlers, the serial executor and the
    parallel aggregation tool, followed by the properties established
    about them. *)

From stdpp Require Import base strings functions gmap list.

Local Open Scope string_scope.
Local Open Scope list_scope.

(** ** JavaScript values *)

(** The six extension points, in the order of [aApplicablePoints]. *)
Inductive ApplyPoint :=
| onRequest
| onPreAuth
| onPostAuth
| onPreHandler
| onPostHandler
| onPreResponse.

#[global] Instance ApplyPoint_eq_dec : EqDecision ApplyPoint.
Proof. solve_decision. Defined.

Definition aApplicablePoints : list ApplyPoint :=
  [onRequest; onPreAuth; onPostAuth; onPreHandler; onPostHandler; onPreResponse].

(** The string under which the code names each point. *)
Definition pointName (p : ApplyPoint) : string :=
  match p with
  | onRequest => "onRequest"
  | onPreAuth => "onPreAuth"
  | onPostAuth => "onPostAuth"
  | onPreHandler => "onPreHandler"
  | onPostHandler => "onPostHandler"
  | onPreResponse => "onPreResponse"
  end.

(** [aApplicablePoints.indexOf(s) !== -1], returning the point found. *)
Definition pointOfName (s : string) : option ApplyPoint :=
  List.find (λ p, bool_decide (pointName p = s)) aApplicablePoints.

(** The values a property such as [policy.applyPoint] may hold:
    [undefined], [null], a boolean, a string, or any other value that
    converts to a string (a number, an array, a function, an object),
    known by its truthiness and by the text its conversion yields.
    Symbols, whose conversion to a string throws, are not among them. *)
Inductive JsVal :=
| JUndefined
| JNull
| JBool (b : bool)
| JStr (s : string)
| JOther (holds : bool) (text : string).

#[global] Instance JsVal_eq_dec : EqDecision JsVal.
Proof. solve_decision. Defined.

(** JavaScript truthiness, as tested by [!v] and [v || w]. *)
Definition truthy (v : JsVal) : bool :=
  match v with
  | JUndefined | JNull => false
  | JBool b => b
  | JStr s => negb (bool_decide (s = ""))
  | JOther holds _ => holds
  end.

(** String conversion, as performed by ['...' + v]. *)
Definition toString (v : JsVal) : string :=
  match v with
  | JUndefined => "undefined"
  | JNull => "null"
  | JBool true => "true"
  | JBool false => "false"
  | JStr s => s
  | JOther _ text => text
  end.

(** Elements of a name array and arguments of [parallel]: a string, a
    function (known by its identity) or some other value. *)
Inductive Arg :=
| AName (s : string)
| AFunction (f : nat)
| AValue (v : nat).

#[global] Instance Arg_eq_dec : EqDecision Arg.
Proof. solve_decision. Defined.

(** Errors: [new Error(msg)] and the Boom constructors the code calls. *)
Inductive Err :=
| JsError (msg : string)
| notImplemented (msg : string)
| badImplementation (msg : string)
| forbidden (msg : option string).

#[global] Instance Err_eq_dec : EqDecision Err.
Proof. solve_decision. Defined.

(** Failed [oHoek.assert]s throw; [Throw] carries the assertion message. *)
Inductive Result (A : Type) :=
| Ok (a : A)
| Throw (msg : string).
Arguments Ok {A} a.
Arguments Throw {A} msg.

(** ** Policies *)

(** What a request carries for a policy to inspect. *)
Definition RequestData := string.

(** The arguments a policy passes to its continuation:
    [next(err, canContinue, message)]. *)
Record NextArgs := mkNext {
  err : option Err;
  canContinue : bool;
  message : option string
}.

(** One invocation [policy(request, reply, next)]: whether the policy
    itself produced a response through [reply] (it does so before it
    calls [next]), and the calls it makes to [next], in order.  A policy
    is meant to call [next] once; nothing keeps it from calling it again,
    or not at all. *)
Record PolicyAct := mkAct {
  replies : bool;
  calls : list NextArgs
}.

(** The arguments of the call to [next], for an invocation that calls it
    exactly once. *)
Definition next (act : PolicyAct) : option NextArgs :=
  match calls act with
  | [a] => Some a
  | _ => None
  end.

Definition PolicyFn := RequestData → PolicyAct.

(** The error handler of an aggregate: [defaultErrorHandler], or the
    function given as last argument to [parallel]. *)
Inductive ErrorHandler :=
| DefaultErrorHandler
| CustomErrorHandler (f : nat).

(** A policy is a function with two optional properties.  Its body is
    either caller-supplied code or the [aggregatePolicy] closure built by
    [parallel].  What a handler reads from a bucket may also be no policy
    at all, but the value every object inherits under that name from
    [Object.prototype]. *)
Inductive Impl :=
| UserCode (f : PolicyFn)
| AggregatePolicy (policyNames : list Arg) (errorHandler : ErrorHandler)
| ObjectPrototype (property : string).

Record Policy := mkPolicy {
  applyPoint : JsVal;
  runs : option (list Arg);
  impl : Impl
}.

(** [hasValidApplyPoint]. *)
Definition hasValidApplyPoint (oPolicy : Policy) : bool :=
  negb (truthy (applyPoint oPolicy)) ||
  match applyPoint oPolicy with
  | JStr s => bool_decide (is_Some (pointOfName s))
  | _ => false
  end.

(** ** lodash and items helpers *)

(** [_.intersection(a, b)]: the distinct values of [a] that occur in [b]. *)
Definition intersection `{EqDecision A} (a b : list A) : list A :=
  filter (λ x, x ∈ b) (remove_dups a).

(** [_.uniq(l)]; only its length is ever used. *)
Definition uniq `{EqDecision A} (l : list A) : list A := remove_dups l.

(** ** Plain objects used as tables *)

(** A table such as [oData.rawPolicies], a bucket or the [results] of an
    aggregate is a plain object, written to with [o[name] = v] and read
    with [o[name]].  It is modelled by the map from each name that has
    been assigned to the value assigned last.  A read of a name that was
    never assigned finds what the object inherits under that name from
    [Object.prototype], if anything. *)
Definition objectPrototypeKeys : list string :=
  ["constructor"; "__defineGetter__"; "__defineSetter__"; "hasOwnProperty";
   "__lookupGetter__"; "__lookupSetter__"; "isPrototypeOf";
   "propertyIsEnumerable"; "toString"; "valueOf"; "__proto__";
   "toLocaleString"].

(** [o[name]], given what a property inherited from [Object.prototype]
    counts as; [None] stands for [undefined].  The prototype of the table
    is taken to be [Object.prototype]: no assignment under ["__proto__"],
    which would replace it, has been made. *)
Definition readProperty {V : Type} (inherited : string → V)
    (o : gmap string V) (name : string) : option V :=
  match o !! name with
  | Some v => Some v
  | None =>
      if bool_decide (name ∈ objectPrototypeKeys) then Some (inherited name)
      else None
  end.

(** [Object.keys(o)] read as an array of values. *)
Definition keys (o : gmap string Policy) : list Arg :=
  AName <$> (map_to_list o).*1.

(** [Items.serial(tasks, method, callback)] for a [method] that calls its
    continuation once, as [addPolicy] does: [method] runs on each task in
    turn and the first error ends the iteration; the result is what
    [callback] receives. *)
Fixpoint serial {T S : Type} (method : T → S → option Err * S)
    (tasks : list T) (s : S) : option Err * S :=
  match tasks with
  | [] => (None, s)
  | t :: tasks' =>
      match method t s with
      | (Some e, s') => (Some e, s')
      | (None, s') => serial method tasks' s'
      end
  end.

(** ** The registry *)

(** [oData]: the name list, the raw policies, the points whose handler
    has been connected, and one bucket per apply point.  The raw policies
    and the buckets are tables in the sense above, from the names
    registered so far to their policies. *)
Record Data := mkData {
  names : list string;
  rawPolicies : gmap string Policy;
  setHandlers : ApplyPoint → bool;
  bucket : ApplyPoint → gmap string Policy
}.

(** The state of the module after loading, and after [reset]. *)
Definition emptyData : Data :=
  {| names := [];
     rawPolicies := ∅;
     setHandlers := λ _, false;
     bucket := λ _, ∅ |}.

(** What the module does to the server: [server.ext] and [server.log]
    calls, oldest first. *)
Record Server := mkServer {
  exts : list ApplyPoint;
  logs : list (string * string)
}.

Definition log (tag msg : string) (srv : Server) : Server :=
  {| exts := exts srv; logs := logs srv ++ [(tag, msg)] |}.

Definition ext (p : ApplyPoint) (srv : Server) : Server :=
  {| exts := exts srv ++ [p]; logs := logs srv |}.

(** A file of the policy directory: its name and the module [require]
    returns for it. *)
Record File := mkFile {
  filename : string;
  module : Policy
}.

(** [filename.match(/(.+)\.js$/)]: the text before a final ".js", which
    must not be empty.  File names are taken to be free of line
    terminators, and no policy file to be named ["__proto__.js"]: an
    assignment under that name would replace the prototype of a table
    instead of adding a key to it.  The properties of registration that
    depend on this say so. *)
Definition matchJs (filename : string) : option string :=
  let n := String.length filename in
  if bool_decide (3 < n) && bool_decide (String.substring (n - 3) 3 filename = ".js")
  then Some (String.substring 0 (n - 3) filename)
  else None.

(** [v || fallback] read as an apply point: a truthy [v] stands for
    itself, a falsy one gives way to [fallback]. *)
Definition effectivePoint (v : JsVal) (fallback : ApplyPoint)
    : option ApplyPoint :=
  if truthy v
  then match v with JStr s => pointOfName s | _ => None end
  else Some fallback.

(** ** The response handle *)

(** What has been done with [reply]: [reply.continue()], [reply(err)], or
    a response a policy produced by itself. *)
Inductive Response :=
| Continue
| Respond (e : Err)
| PolicyResponse.

#[global] Instance Response_eq_dec : EqDecision Response.
Proof. solve_decision. Defined.

(** [_replied] is the handle's own flag: it is set once a response has
    been produced. *)
Record Reply := mkReply {
  _replied : bool;
  sent : list Response
}.

Definition freshReply : Reply := {| _replied := false; sent := [] |}.

Definition respond (r : Response) (reply : Reply) : Reply :=
  {| _replied := true; sent := sent reply ++ [r] |}.

(** ** The serial executor *)

(** The callback [checkPolicy] hands to a policy: the error passed on to
    [next], if any. *)
Definition checkPolicy (a : NextArgs) : option Err :=
  match err a with
  | Some e => Some e
  | None => if canContinue a then None else Some (forbidden (message a))
  end.

(** The state of one run of [Items.serial] under [runPolicies]: the
    counter [i] the library keeps for the whole run, the response handle,
    and the invocations made so far (position in the list and what the
    policy did). *)
Record Run := mkRun {
  counter : nat;
  handle : Reply;
  invoked : list (nat * PolicyAct)
}.

(** The final callback [runPolicies] gives to [Items.serial]: it responds
    unless a response has been produced already. *)
Definition callback (e : option Err) (reply : Reply) : Reply :=
  if _replied reply then reply
  else respond (match e with Some e => Respond e | None => Continue end) reply.

Definition finish (e : option Err) (r : Run) : Run :=
  {| counter := counter r;
     handle := callback e (handle r);
     invoked := invoked r |}.

(** The continuation [done] that [Items.serial] hands to a task, applied
    to what [checkPolicy] passes on: an error goes to the final callback;
    anything else adds one to the counter and runs the task now under it,
    or calls the final callback when there is none.  [iterate] is the run
    of the task under the counter. *)
Definition serialDone (iterate : Run → Run) (n : nat) (r : Run) (a : NextArgs)
    : Run :=
  match checkPolicy a with
  | Some e => finish (Some e) r
  | None =>
      let r1 := {| counter := S (counter r);
                   handle := handle r;
                   invoked := invoked r |} in
      if bool_decide (counter r1 < n)%nat then iterate r1
      else finish None r1
  end.

(** [iterate] of [Items.serial], with [checkPolicy] as its method: the
    policy under the counter is invoked, and each call it makes to its
    continuation goes through [serialDone], one after the other.  A call
    is taken to be made while the policy runs, so that what it sets off is
    over before the next call.  Every run that [serialDone] starts is
    under a larger counter, so the recursion is at most as deep as the
    list is long: [fuel] bounds the depth and is never used up
    ([iterate_fuel]). *)
Fixpoint iterate (fuel : nat) (policiesToRun : list PolicyFn)
    (request : RequestData) (r : Run) : Run :=
  match fuel with
  | 0 => r
  | S fuel' =>
      match policiesToRun !! counter r with
      | None => r
      | Some policy =>
          let act := policy request in
          foldl (serialDone (iterate fuel' policiesToRun request)
                   (length policiesToRun))
            {| counter := counter r;
               handle := if replies act
                         then respond PolicyResponse (handle r)
                         else handle r;
               invoked := invoked r ++ [(counter r, act)] |}
            (calls act)
      end
  end.

(** [runPolicies(policiesToRun, request, reply)]: the invocations made and
    the response handle afterwards.  [Items.serial] calls the final
    callback at once when the list is empty. *)
Definition runPolicies (policiesToRun : list PolicyFn) (request : RequestData)
    (reply : Reply) : list (nat * PolicyAct) * Reply :=
  let r0 := {| counter := 0; handle := reply; invoked := [] |} in
  let r := if bool_decide (length policiesToRun = 0) then finish None r0
           else iterate (length policiesToRun) policiesToRun request r0 in
  (invoked r, handle r).

(** ** Policy aggregation *)

(** How the [_.forEach] of [defaultErrorHandler] ends: it ran through the
    list, it was stopped by [return false], or reading a property of a
    missing result threw. *)
Inductive LoopEnd :=
| RanThrough
| Stopped
| TypeError.

(** The [_.forEach] loop of [defaultErrorHandler]: the calls made to
    [next] and how the loop ended.  [results] is a plain object; the
    value inherited from [Object.prototype] under a name without a result
    has no [err], [canContinue] or [message], so it reads as a failure
    with all three [undefined]. *)
Fixpoint forEachRan (ranPolicies : list string) (results : gmap string NextArgs)
    : list NextArgs * LoopEnd :=
  match ranPolicies with
  | [] => ([], RanThrough)
  | oPolicy :: rest =>
      match readProperty (λ _, mkNext None false None) results oPolicy with
      | None => ([], TypeError)
      | Some result =>
          if bool_decide (is_Some (err result)) || negb (canContinue result)
          then ([result], Stopped)
          else forEachRan rest results
      end
  end.

(** [defaultErrorHandler(ranPolicies, results, next)]: the calls made to
    [next], in order, and whether the handler threw. *)
Definition defaultErrorHandler (ranPolicies : list string)
    (results : gmap string NextArgs) : list NextArgs * bool :=
  match forEachRan ranPolicies results with
  | (made, TypeError) => (made, true)
  | (made, _) => (made ++ [mkNext None true None], false)
  end.

(** The error handler and the policy names [parallel] reads off its
    arguments: a final function is the handler and is left out of the
    names. *)
Definition handlerAndNames (args : list Arg) : ErrorHandler * list Arg :=
  match last args with
  | Some (AFunction f) => (CustomErrorHandler f, removelast args)
  | _ => (DefaultErrorHandler, args)
  end.

(** [exports.parallel]: the assertions and the choice of error handler;
    the result is the [aggregatePolicy] function with its [runs]. *)
Definition parallel (args : list Arg) : Result Policy :=
  if bool_decide (length args = 0) then Throw "Requires at least one argument."
  else
    let '(errorHandler, policyNames) := handlerAndNames args in
    if bool_decide (length (uniq policyNames) = length policyNames)
    then Ok {| applyPoint := JUndefined;
               runs := Some policyNames;
               impl := AggregatePolicy policyNames errorHandler |}
    else Throw "Listed policies must be unique.".

(** ** Requests *)

(** An element of a route's policy list: a name, a function, an array of
    names, [null], or anything else. *)
Inductive Entry :=
| EString (s : string)
| EFunction (f : Policy)
| EArray (l : list Arg)
| ENull
| EOther.

(** The parts of [oReq] the handlers read: [route.settings.plugins.policies]
    ([None] when falsy) and [server.plugins.mrhorse.defaultApplyPoint]. *)
Record Request := mkRequest {
  payload : RequestData;
  routePolicies : option (list Entry);
  serverDefaultApplyPoint : ApplyPoint
}.

(** The accumulator of the [reduce] in a handler: the list built so far,
    or the reply already sent ([bRepliedWithError]), or the exception
    that ended it. *)
Inductive Acc :=
| Collecting (aTmpList : list Policy)
| Replied (e : Err)
| Thrown (msg : string).

(** How a handler ends: [fReply.continue()] on a route without policies,
    an error reply, an exception, or the call
    [runPolicies(aPoliciesToRun, oReq, fReply)]. *)
Inductive Outcome :=
| Continued
| RepliedWith (e : Err)
| Threw (msg : string)
| RunPolicies (aPoliciesToRun : list Policy).

(** The first apply point, in the order of [aApplicablePoints], whose
    bucket has [sFirstPolicy] among its keys (the [for] loop of the
    resolver). *)
Definition firstPoint (d : Data) (sFirstPolicy : Arg) : option ApplyPoint :=
  foldl (λ found p,
           match found with
           | None => if bool_decide (sFirstPolicy ∈ keys (bucket d p))
                     then Some p else None
           | Some _ => found
           end) None aApplicablePoints.

(** The function wrapped by [_.memoize]. *)
Definition aggregateApplyPoint (d : Data) (aPolicyNames : list Arg)
    : Result ApplyPoint :=
  match aPolicyNames with
  | [] => Throw "Requires non-empty array of policy names."
  | sFirstPolicy :: _ =>
      if negb (bool_decide (length (intersection (AName <$> names d) aPolicyNames)
                            = length aPolicyNames))
      then Throw "Requires loaded policy names."
      else
        match firstPoint d sFirstPolicy with
        | None => Throw "Policies must be in a valid applyPoint."
        | Some ap =>
            if bool_decide (length (intersection (keys (bucket d ap)) aPolicyNames)
                            = length aPolicyNames)
            then Ok ap
            else Throw "Aggregate policies must be from same applyPoint."
        end
  end.

(** The function branch of a handler's [reduce], once the aggregate apply
    point (if any) is known. *)
Definition classifyFunction (oApplyPoint dflt : ApplyPoint)
    (aAggregateApplyPoint : option ApplyPoint) (xRoutePolicy : Policy)
    (aTmpList : list Policy) : Acc :=
  if negb (hasValidApplyPoint xRoutePolicy) then
    Replied (badImplementation
               ("Trying to use incorrect applyPoint for the dynamic policy: "
                +:+ toString (applyPoint xRoutePolicy)))
  else
    let effectiveApplyPoint :=
      effectivePoint (applyPoint xRoutePolicy)
        (default dflt aAggregateApplyPoint) in
    if bool_decide (effectiveApplyPoint = Some oApplyPoint)
    then Collecting (aTmpList ++ [xRoutePolicy])
    else Collecting aTmpList.

(** What a bucket inherits under a name of [Object.prototype]: a value
    that is truthy, is no policy, and has no [applyPoint] or [runs]. *)
Definition inheritedValue (name : string) : Policy :=
  {| applyPoint := JUndefined; runs := None; impl := ObjectPrototype name |}.

(** The string branch of a handler's [reduce].  Whatever is read from the
    bucket is a function or an object, hence truthy. *)
Definition classifyString (aApplyPointPolicies : gmap string Policy)
    (d : Data) (xRoutePolicy : string) (aTmpList : list Policy) : Acc :=
  if bool_decide (xRoutePolicy ∈ names d) then
    Replied (notImplemented ("Missing policy: " +:+ xRoutePolicy))
  else
    match readProperty inheritedValue aApplyPointPolicies xRoutePolicy with
    | Some policy => Collecting (aTmpList ++ [policy])
    | None => Collecting aTmpList
    end.

(** ** Sample policies *)

(** A policy that lets every request through, and one that rejects every
    request with a message. *)
Definition allow : PolicyFn :=
  λ _, {| replies := false; calls := [mkNext None true None] |}.

Definition deny (m : string) : PolicyFn :=
  λ _, {| replies := false; calls := [mkNext None false (Some m)] |}.

Definition policyAt (v : JsVal) (f : PolicyFn) : Policy :=
  {| applyPoint := v; runs := None; impl := UserCode f |}.

Definition isAdmin : File :=
  {| filename := "isAdmin.js"; module := policyAt JUndefined allow |}.

Definition isLoggedIn : File :=
  {| filename := "isLoggedIn.js";
     module := policyAt (JStr "onPreHandler") allow |}.

Definition rateLimit : File :=
  {| filename := "rateLimit.js";
     module := policyAt (JStr "onRequest") (deny "slow down") |}.

Definition disabled : File :=
  {| filename := "disabled.js"; module := policyAt JNull allow |}.

Definition broken : File :=
  {| filename := "broken.js"; module := policyAt (JStr "onStart") allow |}.

(** A policy that never calls back, and one that fails with an error of
    its own while granting the request. *)
Definition never : PolicyFn := λ _, {| replies := false; calls := [] |}.

Definition failing (e : Err) : PolicyFn :=
  λ _, {| replies := false; calls := [mkNext (Some e) true None] |}.


(** A file that is no policy module. *)
Definition readme : File :=
  {| filename := "README.md"; module := policyAt JUndefined allow |}.

(** The cache key of [_.memoize] as the module runs it: the array the
    resolver is called with.  Arrays are told apart by what they hold. *)
Definition arrayKey (l : list Arg) : list Arg := l.

(** A policy file under the name of a registered policy, with an
    [applyPoint] that is [null]. *)
Definition isAdminOff : File :=
  {| filename := "isAdmin.js"; module := policyAt JNull allow |}.

(** The aggregate of one policy with the default error handler, as it
    behaves when that policy rejects with a message: its calls to [next]
    are those of [defaultErrorHandler]. *)
Definition rejectingGroup (name m : string) : PolicyFn :=
  λ _, {| replies := false;
          calls := (defaultErrorHandler [name]
                      {[ name := mkNext None false (Some m) ]}).1 |}.

Section Engine.

(** [_.memoize] keeps one result per cache key, and the key is taken from
    the array the resolver is called with.  How lodash turns the array
    into a key is not part of this module (the comment above the resolver
    speaks of the names joined by commas, the library the module runs
    with takes the array itself), so the key function is a parameter of
    the development. *)
Context {K : Type} `{EqDecision K} (cacheKey : list Arg → K).

Record State := mkState {
  server : Server;
  oData : Data;
  cache : list (K * ApplyPoint)
}.

(** [addPolicy(filename, addPolicyNext)] inside [loadPolicies]; the first
    component is the error handed to [addPolicyNext], if any.  The default
    apply point has been checked by [register], so it is one of the six;
    a policy that passed [hasValidApplyPoint] always has a target point
    (the branch without one is never taken). *)
Definition addPolicy (defaultApplyPoint : ApplyPoint) (file : File) (st : State)
    : option Err * State :=
  match matchJs (filename file) with
  | None => (None, st)
  | Some name =>
      if bool_decide (name ∈ names (oData st)) then
        let msg := "Trying to add a duplicate policy: " +:+ name in
        (Some (JsError msg),
         {| server := log "error" msg (server st);
            oData := oData st; cache := cache st |})
      else
        let policy := module file in
        if negb (hasValidApplyPoint policy) then
          let msg := "Trying to set incorrect applyPoint for the policy: "
                     +:+ toString (applyPoint policy) in
          (Some (JsError msg),
           {| server := log "error" msg (server st);
              oData := oData st; cache := cache st |})
        else if bool_decide (applyPoint policy = JUndefined)
                || truthy (applyPoint policy) then
          match effectivePoint (applyPoint policy) defaultApplyPoint with
          | None => (None, st)
          | Some ap =>
              let d := oData st in
              let srv := log "info" ("Adding a new policy called " +:+ name)
                           (server st) in
              let d' := {| names := names d ++ [name];
                           rawPolicies := <[name := policy]> (rawPolicies d);
                           setHandlers := setHandlers d;
                           bucket := <[ap := <[name := policy]> (bucket d ap)]>
                                       (bucket d) |} in
              if negb (setHandlers d' ap) then
                (None,
                 {| server := ext ap srv;
                    oData := {| names := names d';
                                rawPolicies := rawPolicies d';
                                setHandlers := <[ap := true]> (setHandlers d');
                                bucket := bucket d' |};
                    cache := cache st |})
              else
                (None, {| server := srv; oData := d'; cache := cache st |})
          end
        else (None, st)
  end.

(** [options] of [loadPolicies]: the listing of [policyDirectory] with the
    module behind each file, and the default apply point if one is set. *)
Record Options := mkOptions {
  defaultApplyPoint : option ApplyPoint;
  policyDirectory : list File
}.

(** [loadPolicies(server, options, next)]; the first component is what
    [next] receives. *)
Definition loadPolicies (options : Options) (st : State) : option Err * State :=
  let dflt := default onPreHandler (defaultApplyPoint options) in
  match policyDirectory options with
  | [] => (None, st)
  | policyFiles => serial (addPolicy dflt) policyFiles st
  end.

(** [reset()]. *)
Definition reset (st : State) : State :=
  {| server := server st; oData := emptyData; cache := [] |}.

(** [options] of [register]: [defaultApplyPoint] as it is given, and the
    listing of [policyDirectory] when one is set. *)
Record PluginOptions := mkPluginOptions {
  pluginDefaultApplyPoint : JsVal;
  pluginPolicyDirectory : option (list File)
}.

(** [exports.register(server, options, next)]: the assertion on the default
    apply point, then the load.  The result is the default apply point
    exposed to the handlers, together with what [next] receives and the
    state; the other [server.expose] calls are not recorded. *)
Definition register (options : PluginOptions) (st : State)
    : Result (ApplyPoint * (option Err * State)) :=
  let v := if truthy (pluginDefaultApplyPoint options)
           then pluginDefaultApplyPoint options else JStr "onPreHandler" in
  match match v with JStr s => pointOfName s | _ => None end with
  | None => Throw ("Specified invalid defaultApplyPoint: " +:+ toString v)
  | Some dflt =>
      Ok (dflt,
          match pluginPolicyDirectory options with
          | Some files =>
              loadPolicies {| defaultApplyPoint := Some dflt;
                              policyDirectory := files |} st
          | None => (None, st)
          end)
  end.

(** [cache.get(key)]. *)
Definition cacheGet (key : K) (c : list (K * ApplyPoint)) : option ApplyPoint :=
  snd <$> List.find (λ e, bool_decide (e.1 = key)) c.

(** [determineAggregateApplyPoint]: the memoized resolver.  A result is
    stored under the key of its argument; a failed assertion stores
    nothing. *)
Definition determineAggregateApplyPoint (aPolicyNames : list Arg) (st : State)
    : Result ApplyPoint * State :=
  let key := cacheKey aPolicyNames in
  match cacheGet key (cache st) with
  | Some ap => (Ok ap, st)
  | None =>
      match aggregateApplyPoint (oData st) aPolicyNames with
      | Ok ap => (Ok ap, {| server := server st; oData := oData st;
                            cache := (key, ap) :: cache st |})
      | Throw msg => (Throw msg, st)
      end
  end.

(** One step of the [reduce] in [aHandlers[oApplyPoint]]. *)
Definition classify (oApplyPoint : ApplyPoint) (oReq : Request)
    (aTmpList : list Policy) (xRoutePolicy : Entry) (st : State) : Acc * State :=
  let dflt := serverDefaultApplyPoint oReq in
  match xRoutePolicy with
  | EArray l =>
      match determineAggregateApplyPoint l st with
      | (Throw msg, st1) => (Thrown msg, st1)
      | (Ok aAggregateApplyPoint, st1) =>
          if bool_decide (aAggregateApplyPoint = oApplyPoint) then
            match parallel l with
            | Throw msg => (Thrown msg, st1)
            | Ok aggregate =>
                (classifyFunction oApplyPoint dflt (Some aAggregateApplyPoint)
                   aggregate aTmpList, st1)
            end
          else (Collecting aTmpList, st1)
      end
  | EString s =>
      (classifyString (bucket (oData st) oApplyPoint) (oData st) s aTmpList, st)
  | EFunction f =>
      match runs f with
      | Some rs =>
          if negb (truthy (applyPoint f)) then
            match determineAggregateApplyPoint rs st with
            | (Throw msg, st1) => (Thrown msg, st1)
            | (Ok aAggregateApplyPoint, st1) =>
                (classifyFunction oApplyPoint dflt (Some aAggregateApplyPoint)
                   f aTmpList, st1)
            end
          else (classifyFunction oApplyPoint dflt None f aTmpList, st)
      | None => (classifyFunction oApplyPoint dflt None f aTmpList, st)
      end
  | ENull => (Collecting aTmpList, st)
  | EOther =>
      (Replied (badImplementation "Policy not specified by name or by function."),
       st)
  end.

(** The [reduce] itself: after an error reply the remaining entries are
    passed over, and an exception leaves the loop. *)
Fixpoint classifyAll (oApplyPoint : ApplyPoint) (oReq : Request)
    (aRoutePolicies : list Entry) (acc : Acc) (st : State) : Acc * State :=
  match aRoutePolicies with
  | [] => (acc, st)
  | xRoutePolicy :: rest =>
      match acc with
      | Collecting aTmpList =>
          let '(acc1, st1) := classify oApplyPoint oReq aTmpList xRoutePolicy st in
          classifyAll oApplyPoint oReq rest acc1 st1
      | _ => (acc, st)
      end
  end.

(** [aHandlers[oApplyPoint]], the extension handler of one apply point. *)
Definition handler (oApplyPoint : ApplyPoint) (oReq : Request) (st : State)
    : Outcome * State :=
  match routePolicies oReq with
  | None => (Continued, st)
  | Some aRoutePolicies =>
      match classifyAll oApplyPoint oReq aRoutePolicies (Collecting []) st with
      | (Collecting aPoliciesToRun, st1) => (RunPolicies aPoliciesToRun, st1)
      | (Replied e, st1) => (RepliedWith e, st1)
      | (Thrown msg, st1) => (Threw msg, st1)
      end
  end.

(** ** States of interest *)

(** The state in which the module is loaded, before any server call. *)
Definition initialState : State :=
  {| server := {| exts := []; logs := [] |}; oData := emptyData; cache := [] |}.

(** A run of registration attempts, each with the default apply point in
    force for it. *)
Definition registrations (attempts : list (ApplyPoint * File)) (st : State)
    : State :=
  foldl (λ st a, (addPolicy a.1 a.2 st).2) st attempts.

(** A run of [loadPolicies] calls, one per option record. *)
Definition loads (batches : list Options) (st : State) : State :=
  foldl (λ st options, (loadPolicies options st).2) st batches.

(** How many times the handler of [p] has been connected with [server.ext]. *)
Definition connections (p : ApplyPoint) (srv : Server) : nat :=
  count_occ ApplyPoint_eq_dec (exts srv) p.

(** The state after loading a directory of three policies into the
    initial state. *)
Definition loaded : State :=
  (loadPolicies {| defaultApplyPoint := None;
                   policyDirectory := [isAdmin; isLoggedIn; rateLimit] |}
     initialState).2.

(** The states the module can be in: it starts empty, and changes through
    registration, [reset], the resolver and the handlers. *)
Inductive reachable : State → Prop :=
| reach_init srv :
    reachable {| server := srv; oData := emptyData; cache := [] |}
| reach_addPolicy dflt file st :
    reachable st → reachable (addPolicy dflt file st).2
| reach_reset st :
    reachable st → reachable (reset st)
| reach_resolve l st :
    reachable st → reachable (determineAggregateApplyPoint l st).2
| reach_handler p req st :
    reachable st → reachable (handler p req st).2.

(** Consistency of the registry: names are listed once, the raw policies
    and the buckets hold exactly the listed names, no name is in two
    buckets, and a handler is marked as set exactly for the non-empty
    buckets. *)
Record registry_wf (d : Data) : Prop := {
  wf_NoDup : NoDup (names d);
  wf_raw n : is_Some (rawPolicies d !! n) ↔ n ∈ names d;
  wf_bucket n : n ∈ names d ↔ ∃ p, is_Some (bucket d p !! n);
  wf_disjoint p q n :
    is_Some (bucket d p !! n) → is_Some (bucket d q !! n) → p = q;
  wf_setHandlers p : setHandlers d p = true ↔ bucket d p ≠ ∅
}.

(** The memoization cache agrees with the registry: whatever is stored
    under the key of an array is what the resolver computes for it. *)
Definition cache_coherent (st : State) : Prop :=
  ∀ l ap, cacheGet (cacheKey l) (cache st) = Some ap →
          aggregateApplyPoint (oData st) l = Ok ap.

(** ** Relations between the states of a run *)

(** A run only moves the counter up, only adds to the invocations, and
    only adds to what has been sent. *)
Definition follows (r r' : Run) : Prop :=
  (counter r ≤ counter r')%nat
  ∧ invoked r `prefix_of` invoked r'
  ∧ sent (handle r) `prefix_of` sent (handle r').

(** What one handle makes of another when responses are added of which at
    most one is the executor's own, and none once a response has been
    produced. *)
Definition answers (h h' : Reply) : Prop :=
  ∃ added,
    sent h' = sent h ++ added
    ∧ (length (filter (λ x, x ≠ PolicyResponse) added) ≤ 1)%nat
    ∧ (_replied h = true → Forall (λ x, x = PolicyResponse) added)
    ∧ (added = [] → _replied h' = _replied h)
    ∧ (added ≠ [] → _replied h' = true).

(** * Properties *)

(** *** Keys and intersections *)

Lemma elem_of_keys (o : gmap string Policy) (n : string) :
  AName n ∈ keys o ↔ is_Some (o !! n).
Proof.
  unfold keys. rewrite list_elem_of_fmap. split.
  - intros (m & [= <-] & Hm). apply list_elem_of_fmap in Hm as ([k v] & -> & Hkv).
    apply elem_of_map_to_list in Hkv. eauto.
  - intros [v Hv]. exists n. split; [done|].
    apply list_elem_of_fmap. exists (n, v). split; [done|].
    by apply elem_of_map_to_list.
Qed.

Lemma elem_of_keys_inv (o : gmap string Policy) (x : Arg) :
  x ∈ keys o → ∃ n, x = AName n ∧ is_Some (o !! n).
Proof.
  intros Hx. pose proof Hx as Hx'. unfold keys in Hx'.
  apply list_elem_of_fmap in Hx' as (n & -> & _).
  exists n. split; [done|]. by apply elem_of_keys.
Qed.

Lemma intersection_Permutation `{EqDecision A} (a l l' : list A) :
  l ≡ₚ l' → intersection a l = intersection a l'.
Proof.
  intros Hp. unfold intersection. apply list_filter_iff.
  intros x. by rewrite Hp.
Qed.

Lemma intersection_full `{EqDecision A} (a l : list A) :
  length (intersection a l) = length l → ∀ x, x ∈ l → x ∈ a.
Proof.
  intros Hlen x Hx.
  assert (intersection a l ⊆+ l) as Hsub.
  { apply NoDup_submseteq.
    - apply NoDup_filter, NoDup_remove_dups.
    - intros y Hy. by apply list_elem_of_filter in Hy as [? _]. }
  apply submseteq_length_Permutation in Hsub; [|lia].
  rewrite <- Hsub in Hx. unfold intersection in Hx.
  apply list_elem_of_filter in Hx as [_ Hx].
  by apply elem_of_remove_dups.
Qed.

Lemma intersection_NoDup `{EqDecision A} (a l : list A) :
  length (intersection a l) = length l → NoDup l.
Proof.
  intros Hlen.
  assert (intersection a l ⊆+ l) as Hsub.
  { apply NoDup_submseteq.
    - apply NoDup_filter, NoDup_remove_dups.
    - intros y Hy. by apply list_elem_of_filter in Hy as [? _]. }
  apply submseteq_length_Permutation in Hsub; [|lia].
  rewrite <- Hsub. apply NoDup_filter, NoDup_remove_dups.
Qed.

(** *** The resolver *)

Lemma firstPoint_Some (d : Data) (x : Arg) (p : ApplyPoint) :
  firstPoint d x = Some p → x ∈ keys (bucket d p).
Proof.
  unfold firstPoint. simpl.
  repeat case_bool_decide; intros [= <-]; assumption.
Qed.

Lemma firstPoint_is_Some (d : Data) (x : Arg) (p : ApplyPoint) :
  x ∈ keys (bucket d p) → is_Some (firstPoint d x).
Proof.
  intros Hx. unfold firstPoint. simpl.
  repeat case_bool_decide; eauto.
  destruct p; contradiction.
Qed.

Lemma firstPoint_unique (d : Data) (x : Arg) (p : ApplyPoint) :
  registry_wf d → x ∈ keys (bucket d p) → firstPoint d x = Some p.
Proof.
  intros Hwf Hx.
  destruct (firstPoint_is_Some d x p Hx) as [q Hq].
  rewrite Hq. f_equal.
  apply firstPoint_Some in Hq.
  apply elem_of_keys_inv in Hx as (n & -> & Hp).
  apply elem_of_keys in Hq.
  by eapply wf_disjoint.
Qed.

(** On a consistent registry the function under the memoization gives
    the same point for every ordering of an array it accepts. *)
Lemma aggregateApplyPoint_Permutation (d : Data) (l l' : list Arg)
    (ap : ApplyPoint) :
  registry_wf d → l ≡ₚ l' →
  aggregateApplyPoint d l = Ok ap → aggregateApplyPoint d l' = Ok ap.
Proof.
  intros Hwf Hp Hres.
  assert (length (intersection (AName <$> names d) l) = length l
          ∧ length (intersection (keys (bucket d ap)) l) = length l) as [Hnames Hall].
  { unfold aggregateApplyPoint in Hres. destruct l as [|x l0]; [done|].
    case_bool_decide; [|done]. simpl in Hres.
    destruct (firstPoint d x) as [q|]; [|done].
    case_bool_decide; [|done]. by injection Hres as ->. }
  unfold aggregateApplyPoint.
  destruct l' as [|y l0'].
  { apply Permutation_nil_r in Hp. by subst l. }
  assert (y ∈ keys (bucket d ap)) as Hy.
  { apply (intersection_full _ _ Hall). rewrite Hp. left. }
  rewrite (firstPoint_unique d y ap Hwf Hy).
  rewrite <- !(intersection_Permutation _ _ _ Hp), <- (Permutation_length Hp).
  by rewrite !bool_decide_eq_true_2.
Qed.

(** Reading through a coherent cache changes nothing. *)
Lemma determine_coherent_result (l : list Arg) (st : State) :
  cache_coherent st →
  (determineAggregateApplyPoint l st).1 = aggregateApplyPoint (oData st) l.
Proof.
  intros Hc. unfold determineAggregateApplyPoint.
  destruct (cacheGet (cacheKey l) (cache st)) as [ap|] eqn:Hget.
  - symmetry. by apply Hc.
  - by destruct (aggregateApplyPoint (oData st) l).
Qed.

Lemma determine_oData (l : list Arg) (st : State) :
  oData (determineAggregateApplyPoint l st).2 = oData st
  ∧ server (determineAggregateApplyPoint l st).2 = server st.
Proof.
  unfold determineAggregateApplyPoint.
  destruct (cacheGet _ _); [done|].
  by destruct (aggregateApplyPoint _ _).
Qed.

Lemma cacheGet_cons (k k' : K) (ap : ApplyPoint) (c : list (K * ApplyPoint)) :
  cacheGet k ((k', ap) :: c) = if decide (k' = k) then Some ap else cacheGet k c.
Proof.
  unfold cacheGet. simpl. by case_bool_decide; case_decide.
Qed.

(** A cache key that tells arrays apart keeps the cache coherent. *)
Lemma determine_coherent (l : list Arg) (st : State) :
  Inj (=) (=) cacheKey →
  cache_coherent st → cache_coherent (determineAggregateApplyPoint l st).2.
Proof.
  intros Hinj Hc. unfold determineAggregateApplyPoint.
  destruct (cacheGet (cacheKey l) (cache st)) as [ap|] eqn:Hget; [done|].
  destruct (aggregateApplyPoint (oData st) l) as [ap|msg] eqn:Hres; [|done].
  intros l' ap'. simpl. rewrite cacheGet_cons.
  case_decide as Hk.
  - apply Hinj in Hk as ->. by intros [= <-].
  - apply Hc.
Qed.

(** *** Registration *)

(** What one registration attempt does to the state: nothing to the
    registry, or it enters a fresh name in one bucket and connects the
    handler of that bucket's point unless it is marked as set. *)
Lemma addPolicy_spec (dflt : ApplyPoint) (file : File) (st : State) :
  cache (addPolicy dflt file st).2 = cache st ∧
  ((oData (addPolicy dflt file st).2 = oData st
    ∧ exts (server (addPolicy dflt file st).2) = exts (server st))
   ∨ ∃ name ap,
       (addPolicy dflt file st).1 = None
       ∧ matchJs (filename file) = Some name
       ∧ (name ∉ names (oData st))
       ∧ names (oData (addPolicy dflt file st).2) = names (oData st) ++ [name]
       ∧ rawPolicies (oData (addPolicy dflt file st).2)
         = <[name := module file]> (rawPolicies (oData st))
       ∧ bucket (oData (addPolicy dflt file st).2)
         = <[ap := <[name := module file]> (bucket (oData st) ap)]>
             (bucket (oData st))
       ∧ (∀ q, setHandlers (oData (addPolicy dflt file st).2) q
               = if decide (q = ap) then true else setHandlers (oData st) q)
       ∧ exts (server (addPolicy dflt file st).2)
         = exts (server st) ++ (if setHandlers (oData st) ap then [] else [ap])).
Proof.
  unfold addPolicy.
  destruct (matchJs (filename file)) as [name|]; [|by auto].
  case_bool_decide as Hdup; [by auto|].
  destruct (hasValidApplyPoint (module file)); simpl; [|by auto].
  destruct (bool_decide _ || truthy _); [|by auto].
  destruct (effectivePoint _ dflt) as [ap|]; [|by auto].
  destruct (setHandlers (oData st) ap) eqn:Hset; simpl.
  - split; [done|]. right. exists name, ap.
    repeat split; try done.
    + intros q. case_decide; by subst.
    + by rewrite Hset, app_nil_r.
  - split; [done|]. right. exists name, ap.
    repeat split; try done.
    + intros q. case_decide as Hq.
      * subst q. apply fn_lookup_insert.
      * by apply fn_lookup_insert_ne.
    + by rewrite Hset.
Qed.

Lemma emptyData_wf : registry_wf emptyData.
Proof.
  split; simpl.
  - constructor.
  - intros n. rewrite lookup_empty. split; [by intros [? ?]|].
    by intros ?%elem_of_nil.
  - intros n. split; [by intros ?%elem_of_nil|].
    intros [p [? Hp]]. by rewrite lookup_empty in Hp.
  - intros p q n [? Hp]. by rewrite lookup_empty in Hp.
  - intros p. split; [done|]. by intros [].
Qed.

Lemma addPolicy_wf (dflt : ApplyPoint) (file : File) (st : State) :
  registry_wf (oData st) → registry_wf (oData (addPolicy dflt file st).2).
Proof.
  intros Hwf.
  destruct (addPolicy_spec dflt file st) as [_ [[-> _]|Hadd]]; [done|].
  destruct Hadd as (name & ap & _ & _ & Hfresh & Hn & Hr & Hb & Hs & _).
  assert (∀ p, bucket (oData st) p !! name = None) as Hnone.
  { intros p. apply eq_None_not_Some. intros Hp.
    apply Hfresh, (wf_bucket _ Hwf). eauto. }
  split.
  - rewrite Hn. apply NoDup_app. split; [apply Hwf|]. split.
    + intros x Hx ->%list_elem_of_singleton. done.
    + apply NoDup_singleton.
  - intros n. rewrite Hr, Hn, elem_of_app, list_elem_of_singleton.
    destruct (decide (n = name)) as [->|Hne].
    + rewrite lookup_insert_eq. split; eauto.
    + rewrite lookup_insert_ne by done. rewrite (wf_raw _ Hwf).
      split; [by left|by intros [?|?]].
  - intros n. rewrite Hb, Hn, elem_of_app, list_elem_of_singleton.
    destruct (decide (n = name)) as [->|Hne].
    + split; [|by auto]. intros _. exists ap.
      rewrite fn_lookup_insert, lookup_insert_eq. eauto.
    + rewrite (wf_bucket _ Hwf). split.
      * intros [[p Hp]|?]; [|done]. exists p.
        destruct (decide (ap = p)) as [->|?].
        -- by rewrite fn_lookup_insert, lookup_insert_ne.
        -- by rewrite fn_lookup_insert_ne.
      * intros [p Hp]. left. exists p.
        destruct (decide (ap = p)) as [->|?].
        -- by rewrite fn_lookup_insert, lookup_insert_ne in Hp.
        -- by rewrite fn_lookup_insert_ne in Hp.
  - intros p q n. rewrite Hb.
    assert (∀ r, is_Some ((<[ap := <[name := module file]> (bucket (oData st) ap)]>
                             (bucket (oData st))) r !! n) →
                 (n = name ∧ r = ap)
                 ∨ (n ≠ name ∧ is_Some (bucket (oData st) r !! n)))
      as Hcase.
    { intros r Hr'. destruct (decide (ap = r)) as [->|Hne].
      - rewrite fn_lookup_insert in Hr'.
        destruct (decide (n = name)) as [->|?]; [by left|right].
        by rewrite lookup_insert_ne in Hr'.
      - rewrite fn_lookup_insert_ne in Hr' by done. right. split; [|done].
        intros ->. rewrite Hnone in Hr'. by destruct Hr'. }
    intros Hp Hq. apply Hcase in Hp, Hq.
    destruct Hp as [[? ->]|[? Hp]], Hq as [[? ->]|[? Hq]]; try done.
    by eapply wf_disjoint.
  - intros p. rewrite Hs, Hb. case_decide as Hp.
    + subst p. rewrite fn_lookup_insert. split; [|done].
      intros _. apply insert_non_empty.
    + rewrite fn_lookup_insert_ne by done. apply Hwf.
Qed.

Lemma registrations_snoc (attempts : list (ApplyPoint * File))
    (a : ApplyPoint * File) (st : State) :
  registrations (attempts ++ [a]) st
  = (addPolicy a.1 a.2 (registrations attempts st)).2.
Proof. unfold registrations. by rewrite foldl_app. Qed.

Lemma registrations_wf (attempts : list (ApplyPoint * File)) (st : State) :
  registry_wf (oData st) → registry_wf (oData (registrations attempts st)).
Proof.
  revert st. induction attempts as [|a attempts IH]; intros st Hwf; [done|].
  simpl. by apply IH, addPolicy_wf.
Qed.

Lemma serial_addPolicy_reachable (dflt : ApplyPoint) (files : list File)
    (st : State) :
  reachable st → reachable (serial (addPolicy dflt) files st).2.
Proof.
  revert st. induction files as [|f files IH]; intros st Hst; [done|].
  simpl. pose proof (reach_addPolicy dflt f st Hst) as Hf.
  destruct (addPolicy dflt f st) as [[e|] st1]; [done|]. by apply IH.
Qed.

Lemma loadPolicies_reachable (options : Options) (st : State) :
  reachable st → reachable (loadPolicies options st).2.
Proof.
  intros Hst. unfold loadPolicies.
  destruct (policyDirectory options) eqn:Hdir; [done|].
  by apply serial_addPolicy_reachable.
Qed.

(** The handlers leave the registry and the server alone; they only reach
    the cache through the resolver. *)
Lemma classify_oData (p : ApplyPoint) (req : Request) (acc : list Policy)
    (x : Entry) (st : State) :
  oData (classify p req acc x st).2 = oData st
  ∧ server (classify p req acc x st).2 = server st.
Proof.
  unfold classify. destruct x as [s|f|l| |]; try done.
  - destruct (runs f) as [rs|]; [|done].
    destruct (negb _); [|done].
    pose proof (determine_oData rs st) as Hd.
    by destruct (determineAggregateApplyPoint rs st) as [[?|?] ?].
  - pose proof (determine_oData l st) as Hd.
    destruct (determineAggregateApplyPoint l st) as [[?|?] ?]; [|done].
    case_bool_decide; [|done]. by destruct (parallel l).
Qed.

Lemma classify_coherent (p : ApplyPoint) (req : Request) (acc : list Policy)
    (x : Entry) (st : State) :
  Inj (=) (=) cacheKey →
  cache_coherent st → cache_coherent (classify p req acc x st).2.
Proof.
  intros Hinj Hc. unfold classify. destruct x as [s|f|l| |]; try done.
  - destruct (runs f) as [rs|]; [|done].
    destruct (negb _); [|done].
    pose proof (determine_coherent rs st Hinj Hc) as Hd.
    by destruct (determineAggregateApplyPoint rs st) as [[?|?] ?].
  - pose proof (determine_coherent l st Hinj Hc) as Hd.
    destruct (determineAggregateApplyPoint l st) as [[?|?] ?]; [|done].
    case_bool_decide; [|done]. by destruct (parallel l).
Qed.

Lemma classifyAll_invariant (P : State → Prop) (p : ApplyPoint) (req : Request)
    (entries : list Entry) (acc : Acc) (st : State) :
  (∀ tmp x st, P st → P (classify p req tmp x st).2) →
  P st → P (classifyAll p req entries acc st).2.
Proof.
  intros Hstep. revert acc st.
  induction entries as [|x entries IH]; intros acc st Hst; [done|].
  simpl. destruct acc as [tmp|e|msg]; try done.
  pose proof (Hstep tmp x st Hst) as Hx.
  destruct (classify p req tmp x st) as [acc1 st1]. by apply IH.
Qed.

Lemma handler_invariant (P : State → Prop) (p : ApplyPoint) (req : Request)
    (st : State) :
  (∀ tmp x st, P st → P (classify p req tmp x st).2) →
  P st → P (handler p req st).2.
Proof.
  intros Hstep Hst. unfold handler.
  destruct (routePolicies req) as [entries|]; [|done].
  pose proof (classifyAll_invariant P p req entries (Collecting []) st Hstep Hst)
    as Hall.
  by destruct (classifyAll p req entries (Collecting []) st) as [[?|?|?] ?].
Qed.

(** Every state the module can be in has a consistent registry. *)
Lemma reachable_wf (st : State) : reachable st → registry_wf (oData st).
Proof.
  induction 1 as [srv|dflt file st _ IH|st _ IH|l st _ IH|p req st _ IH].
  - apply emptyData_wf.
  - by apply addPolicy_wf.
  - apply emptyData_wf.
  - by rewrite (proj1 (determine_oData l st)).
  - apply (handler_invariant (λ st, registry_wf (oData st))); [|done].
    intros tmp x st' Hwf. by rewrite (proj1 (classify_oData p req tmp x st')).
Qed.

(** With a cache key that tells arrays apart, every such state also has a
    coherent cache: registration only adds names, which leaves the point
    of an accepted array as it is. *)
Lemma aggregateApplyPoint_addPolicy (dflt : ApplyPoint) (file : File)
    (st : State) (l : list Arg) (ap : ApplyPoint) :
  registry_wf (oData st) →
  aggregateApplyPoint (oData st) l = Ok ap →
  aggregateApplyPoint (oData (addPolicy dflt file st).2) l = Ok ap.
Proof.
  intros Hwf Hres.
  pose proof (addPolicy_wf dflt file st Hwf) as Hwf'.
  destruct (addPolicy_spec dflt file st) as [_ [[-> _]|Hadd]]; [done|].
  destruct Hadd as (name & q & _ & _ & Hfresh & Hn & _ & Hb & _).
  assert (length (intersection (AName <$> names (oData st)) l) = length l
          ∧ length (intersection (keys (bucket (oData st) ap)) l) = length l)
    as [Hnames Hall].
  { unfold aggregateApplyPoint in Hres. destruct l as [|x l0]; [done|].
    case_bool_decide; [|done]. simpl in Hres.
    destruct (firstPoint (oData st) x) as [r|]; [|done].
    case_bool_decide; [|done]. by injection Hres as ->. }
  set (d' := oData (addPolicy dflt file st).2) in *.
  assert (∀ x, x ∈ l → x ∈ keys (bucket d' ap)) as Hin.
  { intros x Hx. apply (intersection_full _ _ Hall) in Hx.
    apply elem_of_keys_inv in Hx as (n & -> & Hx). apply elem_of_keys.
    rewrite Hb. destruct (decide (q = ap)) as [->|?].
    - rewrite fn_lookup_insert. destruct (decide (name = n)) as [->|?].
      + rewrite lookup_insert_eq. eauto.
      + by rewrite lookup_insert_ne.
    - by rewrite fn_lookup_insert_ne. }
  assert (∀ a : list Arg, NoDup l → (∀ x, x ∈ l → x ∈ a) →
                          length (intersection a l) = length l) as Hfull.
  { intros a Hnd Ha. apply Permutation_length, NoDup_Permutation; [|done|].
    - apply NoDup_filter, NoDup_remove_dups.
    - intros x. unfold intersection.
      rewrite list_elem_of_filter, elem_of_remove_dups.
      split; [by intros [? _]|]. intros Hx. split; [done|by apply Ha]. }
  pose proof (intersection_NoDup _ _ Hall) as Hnd.
  unfold aggregateApplyPoint. destruct l as [|x l0]; [done|].
  rewrite (firstPoint_unique d' x ap Hwf') by (apply Hin; left).
  rewrite !bool_decide_eq_true_2; [done| |].
  - by apply Hfull.
  - apply Hfull; [done|]. intros y Hy. apply Hin in Hy.
    apply elem_of_keys_inv in Hy as (n & -> & Hy).
    apply list_elem_of_fmap_2, (wf_bucket _ Hwf'). eauto.
Qed.

Lemma reachable_coherent (st : State) :
  Inj (=) (=) cacheKey → reachable st → cache_coherent st.
Proof.
  intros Hinj.
  induction 1 as [srv|dflt file st Hst IH|st _ IH|l st _ IH|p req st _ IH].
  - by intros l ap.
  - intros l ap. rewrite (proj1 (addPolicy_spec dflt file st)). intros Hget.
    apply aggregateApplyPoint_addPolicy; [by apply reachable_wf|by apply IH].
  - by intros l ap.
  - by apply determine_coherent.
  - apply (handler_invariant cache_coherent); [|done].
    intros tmp x st'. by apply classify_coherent.
Qed.

(** In every state the module can reach, with a cache key that tells
    arrays apart, the resolver does not depend on the order of the names. *)
Lemma reachable_order_insensitive (st : State) (l l' : list Arg)
    (ap : ApplyPoint) :
  Inj (=) (=) cacheKey → reachable st → l ≡ₚ l' →
  (determineAggregateApplyPoint l st).1 = Ok ap →
  (determineAggregateApplyPoint l' st).1 = Ok ap.
Proof.
  intros Hinj Hst Hp.
  rewrite !determine_coherent_result by by apply reachable_coherent.
  by apply aggregateApplyPoint_Permutation; [apply reachable_wf|].
Qed.

(** C4: whenever the resolver accepts an array of names, it returns the
    same apply point for every permutation of that array.  The registry is
    a consistent one and the cache agrees with it, as they do in the
    states the module reaches. *)
Theorem resolver_order_insensitive (st : State) (l l' : list Arg)
    (ap : ApplyPoint) :
  registry_wf (oData st) → cache_coherent st → l ≡ₚ l' →
  (determineAggregateApplyPoint l st).1 = Ok ap →
  (determineAggregateApplyPoint l' st).1 = Ok ap.
Proof.
  intros Hwf Hc Hp Hres.
  rewrite determine_coherent_result in Hres by done.
  rewrite determine_coherent_result by done.
  revert Hres. by apply aggregateApplyPoint_Permutation.
Qed.

(** C5: registering a name that is already in the registry fails with the
    duplicate-policy error, and leaves the names, the buckets, the raw
    policies and the set handlers (and the connected handlers and the
    cache) as they were. *)
Theorem addPolicy_duplicate (dflt : ApplyPoint) (file : File) (st : State)
    (name : string) :
  matchJs (filename file) = Some name →
  name ∈ names (oData st) →
  (addPolicy dflt file st).1
  = Some (JsError ("Trying to add a duplicate policy: " +:+ name))
  ∧ oData (addPolicy dflt file st).2 = oData st
  ∧ exts (server (addPolicy dflt file st).2) = exts (server st)
  ∧ cache (addPolicy dflt file st).2 = cache st.
Proof.
  intros Hname Hdup. unfold addPolicy. rewrite Hname.
  by rewrite bool_decide_eq_true_2.
Qed.

(** C10, for a name that is not registered yet: a policy whose
    [applyPoint] is falsy without being [undefined] is accepted without
    an error, and the whole state is left as it was; the name is then
    neither in the name list nor among the keys of the raw policies or of
    any bucket.  (Under a registered name the attempt fails as a
    duplicate, whatever the [applyPoint].) *)
Theorem addPolicy_falsy_applyPoint (dflt : ApplyPoint) (file : File)
    (st : State) (name : string) :
  registry_wf (oData st) →
  matchJs (filename file) = Some name →
  name ∉ names (oData st) →
  applyPoint (module file) ≠ JUndefined →
  truthy (applyPoint (module file)) = false →
  addPolicy dflt file st = (None, st)
  ∧ (name ∉ names (oData (addPolicy dflt file st).2))
  ∧ (AName name ∉ keys (rawPolicies (oData (addPolicy dflt file st).2)))
  ∧ ∀ p, AName name ∉ keys (bucket (oData (addPolicy dflt file st).2) p).
Proof.
  intros Hwf Hname Hfresh Hdef Hfalsy.
  assert (addPolicy dflt file st = (None, st)) as Heq.
  { unfold addPolicy. rewrite Hname.
    rewrite bool_decide_eq_false_2 by done.
    unfold hasValidApplyPoint. rewrite Hfalsy. simpl.
    by rewrite bool_decide_eq_false_2. }
  rewrite Heq. simpl. split_and!; [done|done| |].
  - rewrite elem_of_keys. by rewrite (wf_raw _ Hwf).
  - intros p. rewrite elem_of_keys. intros Hp.
    apply Hfresh, (wf_bucket _ Hwf). eauto.
Qed.

Lemma registrations_app (l1 l2 : list (ApplyPoint * File)) (st : State) :
  registrations (l1 ++ l2) st = registrations l2 (registrations l1 st).
Proof. unfold registrations. by rewrite foldl_app. Qed.

(** What [loadPolicies] does, once or several times in a row, is a run of
    registration attempts: those up to the first error of each call. *)
Lemma serial_addPolicy_registrations (dflt : ApplyPoint) (files : list File)
    (st : State) :
  ∃ attempts, (serial (addPolicy dflt) files st).2 = registrations attempts st.
Proof.
  revert st. induction files as [|f files IH]; intros st; [by exists []|].
  simpl. destruct (addPolicy dflt f st) as [[e|] st1] eqn:Hf.
  - exists [(dflt, f)]. simpl. by rewrite Hf.
  - destruct (IH st1) as [attempts Hrest]. exists ((dflt, f) :: attempts).
    simpl. by rewrite Hf.
Qed.

Lemma loads_registrations (batches : list Options) (st : State) :
  ∃ attempts, loads batches st = registrations attempts st.
Proof.
  revert st. induction batches as [|options batches IH]; intros st;
    [by exists []|].
  simpl. destruct (IH (loadPolicies options st).2) as [rest Hrest].
  assert (∃ first, (loadPolicies options st).2 = registrations first st)
    as [first Hfirst].
  { unfold loadPolicies. destruct (policyDirectory options) as [|f files];
      [by exists []|]. apply serial_addPolicy_registrations. }
  exists (first ++ rest). unfold loads in *. simpl.
  by rewrite registrations_app, <- Hfirst.
Qed.

Lemma connections_app (p : ApplyPoint) (srv : Server) (l : list ApplyPoint) :
  count_occ ApplyPoint_eq_dec (exts srv ++ l) p
  = connections p srv + count_occ ApplyPoint_eq_dec l p.
Proof. unfold connections. apply count_occ_app. Qed.

(** From the initial state on, the handler of a point has been connected
    once if it is marked as set, and never otherwise. *)
Lemma registrations_connections (attempts : list (ApplyPoint * File))
    (p : ApplyPoint) :
  connections p (server (registrations attempts initialState))
  = if setHandlers (oData (registrations attempts initialState)) p
    then 1 else 0.
Proof.
  induction attempts as [|a attempts IH] using rev_ind; [done|].
  rewrite registrations_snoc.
  set (st := registrations attempts initialState) in *.
  destruct (addPolicy_spec a.1 a.2 st) as [_ [[Hd He]|Hadd]].
  - unfold connections in *. by rewrite Hd, He.
  - destruct Hadd as (name & ap & _ & _ & _ & _ & _ & _ & Hs & He).
    unfold connections at 1. rewrite He, connections_app, IH, Hs.
    case_decide as Hp.
    + subst p. destruct (setHandlers (oData st) ap); simpl; [done|].
      by destruct (ApplyPoint_eq_dec ap ap).
    + destruct (setHandlers (oData st) ap); simpl.
      * lia.
      * destruct (ApplyPoint_eq_dec ap p); [by subst|lia].
Qed.

(** What a registration attempt does when it passes every check of
    [addPolicy]: the policy is entered under its name in the bucket of
    its point, and the handler of that point is connected unless it is
    marked as set. *)
Lemma addPolicy_accepts (dflt : ApplyPoint) (file : File) (st : State)
    (name : string) (p : ApplyPoint) :
  matchJs (filename file) = Some name →
  name ∉ names (oData st) →
  hasValidApplyPoint (module file) = true →
  applyPoint (module file) = JUndefined
  ∨ truthy (applyPoint (module file)) = true →
  effectivePoint (applyPoint (module file)) dflt = Some p →
  (addPolicy dflt file st).1 = None
  ∧ names (oData (addPolicy dflt file st).2) = names (oData st) ++ [name]
  ∧ rawPolicies (oData (addPolicy dflt file st).2)
    = <[name := module file]> (rawPolicies (oData st))
  ∧ bucket (oData (addPolicy dflt file st).2)
    = <[p := <[name := module file]> (bucket (oData st) p)]> (bucket (oData st))
  ∧ (∀ q, setHandlers (oData (addPolicy dflt file st).2) q
          = if decide (q = p) then true else setHandlers (oData st) q)
  ∧ exts (server (addPolicy dflt file st).2)
    = exts (server st) ++ (if setHandlers (oData st) p then [] else [p]).
Proof.
  intros Hname Hfresh Hvalid Hap Hp. unfold addPolicy. rewrite Hname.
  rewrite bool_decide_eq_false_2 by done. rewrite Hvalid. simpl.
  assert (bool_decide (applyPoint (module file) = JUndefined)
          || truthy (applyPoint (module file)) = true) as ->.
  { destruct Hap as [->| ->]; [done|]. by rewrite orb_true_r. }
  rewrite Hp.
  destruct (setHandlers (oData st) p) eqn:Hset; simpl.
  - split_and!; try done.
    + intros q. case_decide; by subst.
    + by rewrite app_nil_r.
  - split_and!; try done.
    intros q. case_decide as Hq.
    + subst q. apply fn_lookup_insert.
    + by apply fn_lookup_insert_ne.
Qed.

Lemma registrations_setHandlers (attempts : list (ApplyPoint * File))
    (st : State) (p : ApplyPoint) :
  setHandlers (oData st) p = true →
  setHandlers (oData (registrations attempts st)) p = true.
Proof.
  revert st. induction attempts as [|a attempts IH]; intros st Hset; [done|].
  simpl. apply IH.
  destruct (addPolicy_spec a.1 a.2 st) as [_ [[-> _]|Hadd]]; [done|].
  destruct Hadd as (name & ap & _ & _ & _ & _ & _ & _ & -> & _).
  by case_decide.
Qed.

(** C8: along any sequence of registration attempts from the initial
    state, none of them for a file named [__proto__.js] (which would
    replace the prototype of the tables, see [matchJs]), take an attempt
    that passes every check of [addPolicy] and is for the point [p].  It
    registers its policy in the bucket of [p].  It connects the handler
    of [p] exactly when that bucket was empty, which is when the handler
    had not been connected yet; and from then on, whatever attempts
    follow, the handler has been connected exactly once. *)
Theorem handler_connected_once (attempts more : list (ApplyPoint * File))
    (dflt : ApplyPoint) (file : File) (name : string) (p : ApplyPoint) :
  Forall (λ a, matchJs (filename a.2) ≠ Some "__proto__")
    (attempts ++ (dflt, file) :: more) →
  matchJs (filename file) = Some name →
  name ∉ names (oData (registrations attempts initialState)) →
  hasValidApplyPoint (module file) = true →
  applyPoint (module file) = JUndefined
  ∨ truthy (applyPoint (module file)) = true →
  effectivePoint (applyPoint (module file)) dflt = Some p →
  (addPolicy dflt file (registrations attempts initialState)).1 = None
  ∧ bucket (oData (registrations (attempts ++ [(dflt, file)]) initialState)) p
      !! name = Some (module file)
  ∧ connections p (server (registrations attempts initialState))
    = (if decide (bucket (oData (registrations attempts initialState)) p = ∅)
       then 0 else 1)
  ∧ exts (server (registrations (attempts ++ [(dflt, file)]) initialState))
    = exts (server (registrations attempts initialState))
      ++ (if decide (bucket (oData (registrations attempts initialState)) p = ∅)
          then [p] else [])
  ∧ connections p
      (server (registrations (attempts ++ [(dflt, file)]) initialState)) = 1
  ∧ connections p
      (server (registrations (attempts ++ (dflt, file) :: more) initialState))
    = 1.
Proof.
  intros _ Hname Hfresh Hvalid Hap Hp.
  rewrite (registrations_app attempts ((dflt, file) :: more)).
  rewrite registrations_snoc. simpl.
  set (st := registrations attempts initialState) in *.
  destruct (addPolicy_accepts dflt file st name p Hname Hfresh Hvalid Hap Hp)
    as (Hok & _ & _ & Hb & Hs & He).
  pose proof (registrations_connections attempts p) as Hconn. fold st in Hconn.
  pose proof (wf_setHandlers _ (registrations_wf attempts initialState
                                  emptyData_wf) p) as Hset. fold st in Hset.
  assert ((if setHandlers (oData st) p then 1 else 0)
          = (if decide (bucket (oData st) p = ∅) then 0 else 1)
          ∧ (if setHandlers (oData st) p then [] else [p])
            = (if decide (bucket (oData st) p = ∅) then [p] else []))
    as [Hone Hlist].
  { destruct (setHandlers (oData st) p); case_decide as Hemp; try done.
    - by apply Hset in Hemp.
    - assert (false = true) by by apply Hset. done. }
  assert (connections p (server (addPolicy dflt file st).2) = 1) as Hafter.
  { unfold connections at 1. rewrite He, connections_app, Hconn.
    destruct (setHandlers (oData st) p); simpl; [done|].
    by destruct (ApplyPoint_eq_dec p p). }
  split_and!; [done| |by rewrite Hconn|by rewrite He, Hlist|done|].
  - by rewrite Hb, fn_lookup_insert, lookup_insert_eq.
  - assert (setHandlers (oData (addPolicy dflt file st).2) p = true) as Hset'.
    { rewrite Hs. by rewrite decide_True. }
    pose proof (registrations_connections (attempts ++ (dflt, file) :: more) p)
      as Hall.
    rewrite (registrations_app attempts ((dflt, file) :: more)) in Hall.
    simpl in Hall. fold st in Hall. rewrite Hall.
    by rewrite (registrations_setHandlers more _ p Hset').
Qed.

(** *** Reset *)

Lemma addPolicy_names (dflt : ApplyPoint) (file : File) (st : State) (n : string) :
  n ∈ names (oData (addPolicy dflt file st).2) →
  n ∈ names (oData st) ∨ matchJs (filename file) = Some n.
Proof.
  destruct (addPolicy_spec dflt file st) as [_ [[-> _]|Hadd]]; [by left|].
  destruct Hadd as (name & ap & _ & Hname & _ & Hn & _).
  rewrite Hn, elem_of_app, list_elem_of_singleton.
  intros [?|Heq]; [by left|right]. by rewrite Heq.
Qed.

Lemma addPolicy_fresh_ok (dflt : ApplyPoint) (file : File) (st : State) :
  (∀ n, matchJs (filename file) = Some n → n ∉ names (oData st)) →
  hasValidApplyPoint (module file) = true →
  (addPolicy dflt file st).1 = None.
Proof.
  intros Hfresh Hvalid. unfold addPolicy.
  destruct (matchJs (filename file)) as [name|]; [|done].
  rewrite bool_decide_eq_false_2 by by apply Hfresh.
  rewrite Hvalid. simpl.
  destruct (bool_decide _ || truthy _); [|done].
  destruct (effectivePoint _ dflt); [|done].
  by destruct (setHandlers (oData st) a).
Qed.

Lemma addPolicy_names_mono (dflt : ApplyPoint) (file : File) (st : State)
    (n : string) :
  n ∈ names (oData st) → n ∈ names (oData (addPolicy dflt file st).2).
Proof.
  destruct (addPolicy_spec dflt file st) as [_ [[-> _]|Hadd]]; [done|].
  destruct Hadd as (name & ap & _ & _ & _ & Hn & _).
  rewrite Hn, elem_of_app. by left.
Qed.

Lemma serial_addPolicy_names_mono (dflt : ApplyPoint) (files : list File)
    (st : State) (n : string) :
  n ∈ names (oData st) → n ∈ names (oData (serial (addPolicy dflt) files st).2).
Proof.
  revert st. induction files as [|f files IH]; intros st Hn; [done|].
  simpl. pose proof (addPolicy_names_mono dflt f st n Hn) as Hf.
  destruct (addPolicy dflt f st) as [[e|] st1]; [done|]. by apply IH.
Qed.

(** A valid policy under a fresh name is entered in the registry when its
    [applyPoint] is [undefined] or truthy. *)
Lemma addPolicy_registers (dflt : ApplyPoint) (file : File) (st : State)
    (name : string) :
  matchJs (filename file) = Some name →
  name ∉ names (oData st) →
  hasValidApplyPoint (module file) = true →
  applyPoint (module file) = JUndefined ∨ truthy (applyPoint (module file)) = true →
  name ∈ names (oData (addPolicy dflt file st).2).
Proof.
  intros Hname Hfresh Hvalid Hap. unfold addPolicy. rewrite Hname.
  rewrite bool_decide_eq_false_2 by done. rewrite Hvalid. simpl.
  assert (bool_decide (applyPoint (module file) = JUndefined)
          || truthy (applyPoint (module file)) = true) as ->.
  { destruct Hap as [->| ->]; [done|]. by rewrite orb_true_r. }
  assert (is_Some (effectivePoint (applyPoint (module file)) dflt)) as [ap ->].
  { unfold effectivePoint, hasValidApplyPoint in *.
    destruct (truthy (applyPoint (module file))); [|by eauto].
    simpl in Hvalid. destruct (applyPoint (module file)); try done.
    by apply bool_decide_eq_true in Hvalid. }
  destruct (negb _); simpl; rewrite elem_of_app; right; left.
Qed.

(** Loading files with pairwise distinct names, none of them registered
    yet and each with a valid apply point, raises no error. *)
Lemma serial_addPolicy_fresh (dflt : ApplyPoint) (files : list File) (st : State) :
  NoDup (omap (λ f, matchJs (filename f)) files) →
  (∀ n, n ∈ omap (λ f, matchJs (filename f)) files → n ∉ names (oData st)) →
  Forall (λ f, hasValidApplyPoint (module f) = true) files →
  (serial (addPolicy dflt) files st).1 = None
  ∧ cache (serial (addPolicy dflt) files st).2 = cache st
  ∧ ∀ f n, f ∈ files → matchJs (filename f) = Some n →
           applyPoint (module f) = JUndefined
           ∨ truthy (applyPoint (module f)) = true →
           n ∈ names (oData (serial (addPolicy dflt) files st).2).
Proof.
  revert st. induction files as [|f files IH]; intros st Hnd Hfresh Hvalid.
  { repeat split. by intros f n ?%elem_of_nil. }
  apply Forall_cons in Hvalid as [Hf Hvalid]. simpl.
  assert ((addPolicy dflt f st).1 = None) as Hok.
  { apply addPolicy_fresh_ok; [|done]. intros n Hn. apply Hfresh.
    simpl. rewrite Hn. left. }
  pose proof (proj1 (addPolicy_spec dflt f st)) as Hcache.
  pose proof (addPolicy_names dflt f st) as Hnames.
  pose proof (addPolicy_registers dflt f st) as Hreg.
  destruct (addPolicy dflt f st) as [e st1]. simpl in *. subst e.
  rewrite <- Hcache.
  destruct (IH st1) as (Hnone & Hc & Hin); [| |done|].
  - destruct (matchJs (filename f)); [|done].
    by apply NoDup_cons in Hnd as [_ ?].
  - intros n Hn Hin. apply Hnames in Hin as [Hin|Hin].
    + revert Hin. apply Hfresh.
      destruct (matchJs (filename f)); [by right|done].
    + rewrite Hin in Hnd. by apply NoDup_cons in Hnd as [? _].
  - repeat split; [done|done|].
    intros g n [->|Hg]%elem_of_cons Hn Hap; [|by eapply Hin].
    apply serial_addPolicy_names_mono, Hreg; [done| |done|done].
    apply Hfresh. rewrite Hn. left.
Qed.

(** C7: after [reset] the names, the raw policies, the set handlers, the
    buckets and the cache are all empty; loading any batch of files with
    pairwise distinct names and valid apply points then raises no error
    (in particular no duplicate-policy error) and registers every policy
    whose [applyPoint] is [undefined] or truthy, and the resolver gives
    for every array what the newly loaded registry alone determines. *)
Theorem reset_clears (st : State) :
  names (oData (reset st)) = []
  ∧ rawPolicies (oData (reset st)) = ∅
  ∧ (∀ p, setHandlers (oData (reset st)) p = false)
  ∧ (∀ p, bucket (oData (reset st)) p = ∅)
  ∧ cache (reset st) = []
  ∧ ∀ options,
      NoDup (omap (λ f, matchJs (filename f)) (policyDirectory options)) →
      Forall (λ f, hasValidApplyPoint (module f) = true)
        (policyDirectory options) →
      (loadPolicies options (reset st)).1 = None
      ∧ (∀ f n, f ∈ policyDirectory options →
                matchJs (filename f) = Some n →
                applyPoint (module f) = JUndefined
                ∨ truthy (applyPoint (module f)) = true →
                n ∈ names (oData (loadPolicies options (reset st)).2))
      ∧ ∀ l, (determineAggregateApplyPoint l
                (loadPolicies options (reset st)).2).1
             = aggregateApplyPoint
                 (oData (loadPolicies options (reset st)).2) l.
Proof.
  do 5 (split; [done|]). intros options Hnd Hvalid.
  assert ((loadPolicies options (reset st)).1 = None
          ∧ cache (loadPolicies options (reset st)).2 = []
          ∧ ∀ f n, f ∈ policyDirectory options →
                   matchJs (filename f) = Some n →
                   applyPoint (module f) = JUndefined
                   ∨ truthy (applyPoint (module f)) = true →
                   n ∈ names (oData (loadPolicies options (reset st)).2))
    as (Hok & Hcache & Hreg).
  { unfold loadPolicies.
    destruct (policyDirectory options) as [|f files] eqn:Hdir.
    { repeat split. by intros f n ?%elem_of_nil. }
    apply (serial_addPolicy_fresh _ (f :: files)); [done| |done].
    intros n _. simpl. by intros ?%elem_of_nil. }
  repeat split; [done|done|].
  intros l. apply determine_coherent_result.
  intros l' ap. by rewrite Hcache.
Qed.

(** *** The handlers *)

Lemma classifyAll_Replied (p : ApplyPoint) (req : Request) (entries : list Entry)
    (e : Err) (st : State) :
  classifyAll p req entries (Replied e) st = (Replied e, st).
Proof. by destruct entries. Qed.

Lemma readProperty_own {V : Type} (inherited : string → V)
    (o : gmap string V) (name : string) (v : V) :
  o !! name = Some v → readProperty inherited o name = Some v.
Proof. intros Hv. unfold readProperty. by rewrite Hv. Qed.

Lemma readProperty_None {V : Type} (inherited : string → V)
    (o : gmap string V) (name : string) :
  o !! name = None → name ∉ objectPrototypeKeys →
  readProperty inherited o name = None.
Proof.
  intros Hv Hname. unfold readProperty.
  by rewrite Hv, bool_decide_eq_false_2.
Qed.

Lemma classifyAll_skips (p : ApplyPoint) (req : Request) (l : list string)
    (tmp : list Policy) (st : State) :
  registry_wf (oData st) →
  Forall (λ s, (s ∉ names (oData st)) ∧ (s ∉ objectPrototypeKeys)) l →
  classifyAll p req (EString <$> l) (Collecting tmp) st = (Collecting tmp, st).
Proof.
  intros Hwf. induction 1 as [|s l [Hs Hproto] _ IH]; [done|].
  simpl. unfold classifyString.
  rewrite bool_decide_eq_false_2 by done.
  rewrite readProperty_None; [done| |done].
  apply eq_None_not_Some. intros Hp. apply Hs, (wf_bucket _ Hwf). eauto.
Qed.

(** A name that is not registered but is a property of [Object.prototype]
    is not passed over: what the bucket inherits under it is put on the
    list for [runPolicies]. *)
Lemma handler_queues_inherited (p : ApplyPoint) (req : Request) (st : State)
    (s : string) :
  registry_wf (oData st) →
  routePolicies req = Some [EString s] →
  s ∉ names (oData st) → s ∈ objectPrototypeKeys →
  handler p req st = (RunPolicies [inheritedValue s], st).
Proof.
  intros Hwf Hroute Hs Hproto. unfold handler. rewrite Hroute. simpl.
  unfold classifyString, readProperty.
  rewrite bool_decide_eq_false_2 by done.
  assert (bucket (oData st) p !! s = None) as ->.
  { apply eq_None_not_Some. intros Hp. apply Hs, (wf_bucket _ Hwf). eauto. }
  by rewrite bool_decide_eq_true_2.
Qed.

(** C1, as the code has it: the test on [oData.names] is the wrong way
    round, so a route that lists names of policies that were never
    registered gets no reply at all.  Each such entry is passed over,
    unless the name is one that the bucket inherits from
    [Object.prototype], and [runPolicies] is called with the empty list
    and continues.  No policy is registered under ["__proto__"], so the
    buckets have the prototype of every plain object. *)
Theorem handler_skips_unregistered_names (p : ApplyPoint) (req : Request)
    (st : State) (l : list string) :
  registry_wf (oData st) →
  "__proto__" ∉ names (oData st) →
  routePolicies req = Some (EString <$> l) →
  Forall (λ s, (s ∉ names (oData st)) ∧ (s ∉ objectPrototypeKeys)) l →
  handler p req st = (RunPolicies [], st)
  ∧ (runPolicies [] (payload req) freshReply).2 = respond Continue freshReply.
Proof.
  intros Hwf _ Hroute Hl. split; [|done].
  unfold handler. rewrite Hroute. by rewrite classifyAll_skips.
Qed.

(** C3, as the code has it: a route entry that names a registered policy
    is answered with the missing-policy error by the handler of every
    apply point, whether or not the policy is bound to that point, and
    nothing is run. *)
Theorem handler_rejects_registered_name (p : ApplyPoint) (req : Request)
    (st : State) (s : string) (rest : list Entry) :
  routePolicies req = Some (EString s :: rest) →
  s ∈ names (oData st) →
  handler p req st
  = (RepliedWith (notImplemented ("Missing policy: " +:+ s)), st).
Proof.
  intros Hroute Hs. unfold handler. rewrite Hroute. simpl.
  unfold classifyString. rewrite bool_decide_eq_true_2 by done.
  by rewrite classifyAll_Replied.
Qed.

(** *** The default error handler *)

(** C2, as the code has it: when a listed policy has failed, the handler
    calls [next] with the outcome of the earliest such policy and then,
    the loop being over, calls [next] again with success. *)
Theorem defaultErrorHandler_calls_next_twice (pre post : list string)
    (n : string) (results : gmap string NextArgs) (r : NextArgs) :
  Forall (λ m, ∃ r', results !! m = Some r' ∧ err r' = None
                     ∧ canContinue r' = true) pre →
  results !! n = Some r →
  is_Some (err r) ∨ canContinue r = false →
  defaultErrorHandler (pre ++ n :: post) results
  = ([r; mkNext None true None], false).
Proof.
  intros Hpre Hn Hr. unfold defaultErrorHandler.
  assert (forEachRan (pre ++ n :: post) results = ([r], Stopped)) as ->; [|done].
  induction Hpre as [|m pre (r' & Hm & He & Hc) _ IH]; simpl.
  - rewrite (readProperty_own _ _ _ _ Hn).
    assert (bool_decide (is_Some (err r)) || negb (canContinue r) = true) as ->;
      [|done].
    destruct Hr as [Hr| ->]; [|by rewrite orb_true_r].
    by rewrite bool_decide_eq_true_2.
  - by rewrite (readProperty_own _ _ _ _ Hm), He, Hc.
Qed.

(** X2: when every listed policy continued, [next] is called once, with
    success. *)
Theorem defaultErrorHandler_all_continue (ranPolicies : list string)
    (results : gmap string NextArgs) :
  Forall (λ m, ∃ r', results !! m = Some r' ∧ err r' = None
                     ∧ canContinue r' = true) ranPolicies →
  defaultErrorHandler ranPolicies results = ([mkNext None true None], false).
Proof.
  intros Hall. unfold defaultErrorHandler.
  assert (forEachRan ranPolicies results = ([], RanThrough)) as ->; [|done].
  induction Hall as [|m l (r' & Hm & He & Hc) _ IH]; simpl; [done|].
  by rewrite (readProperty_own _ _ _ _ Hm), He, Hc.
Qed.

(** *** The serial executor *)

Lemma foldl_step {A B : Type} (f : A → B → A) (a : A) (x : B) (l : list B) :
  foldl f a (x :: l) = foldl f (f a x) l.
Proof. done. Qed.

Lemma next_Some (act : PolicyAct) (a : NextArgs) :
  next act = Some a ↔ calls act = [a].
Proof.
  unfold next. destruct (calls act) as [|b [|c l]]; split; intros Ha;
    try done; by simplify_eq.
Qed.

Lemma iterate_S (fuel : nat) (ps : list PolicyFn) (request : RequestData)
    (r : Run) (policy : PolicyFn) :
  ps !! counter r = Some policy →
  iterate (S fuel) ps request r
  = foldl (serialDone (iterate fuel ps request) (length ps))
      {| counter := counter r;
         handle := if replies (policy request)
                   then respond PolicyResponse (handle r)
                   else handle r;
         invoked := invoked r ++ [(counter r, policy request)] |}
      (calls (policy request)).
Proof.
  intros Hp. cbn [iterate].
  destruct (ps !! counter r) as [policy'|]; by simplify_eq.
Qed.

(** A relation between the states of a run that holds across each of the
    three things a run does (invoke a policy, move the counter, call the
    final callback) holds across the whole run. *)
Lemma iterate_invariant (R : Run → Run → Prop) `{!PreOrder R}
    (ps : list PolicyFn) (request : RequestData) :
  (∀ e r, R r (finish e r)) →
  (∀ r, R r {| counter := S (counter r); handle := handle r;
               invoked := invoked r |}) →
  (∀ r act, R r {| counter := counter r;
                   handle := if replies act
                             then respond PolicyResponse (handle r)
                             else handle r;
                   invoked := invoked r ++ [(counter r, act)] |}) →
  ∀ fuel r,
    R r (iterate fuel ps request r)
    ∧ ∀ l, R r (foldl (serialDone (iterate fuel ps request) (length ps)) r l).
Proof.
  intros Hfinish Hcount Hinvoke.
  assert (∀ run : Run → Run, (∀ r, R r (run r)) →
            ∀ l r, R r (foldl (serialDone run (length ps)) r l)) as Hfold.
  { intros run Hrun l. induction l as [|a l IH]; intros r; [done|].
    simpl. etrans; [|apply IH]. unfold serialDone.
    destruct (checkPolicy a); [apply Hfinish|].
    case_bool_decide.
    - etrans; [apply Hcount|apply Hrun].
    - etrans; [apply Hcount|apply Hfinish]. }
  assert (∀ fuel r, R r (iterate fuel ps request r)) as Hrun.
  { induction fuel as [|fuel IH]; intros r; [done|].
    simpl. destruct (ps !! counter r) as [policy|]; [|done].
    etrans; [apply (Hinvoke r (policy request))|]. by apply Hfold. }
  intros fuel r. split; [apply Hrun|]. intros l. by apply Hfold.
Qed.

#[local] Instance follows_PreOrder : PreOrder follows.
Proof.
  split.
  - intros r. by split_and!.
  - intros r1 r2 r3 (Hc & Hi & Hs) (Hc' & Hi' & Hs').
    split_and!; [lia|by etrans|by etrans].
Qed.

Lemma iterate_follows (ps : list PolicyFn) (request : RequestData)
    (fuel : nat) (r : Run) :
  follows r (iterate fuel ps request r)
  ∧ ∀ l, follows r (foldl (serialDone (iterate fuel ps request) (length ps))
                      r l).
Proof.
  apply (iterate_invariant follows).
  - intros e r0. split_and!; [done|done|]. simpl. unfold callback.
    destruct (_replied (handle r0)); [done|]. by apply prefix_app_r.
  - intros r0. split_and!; [simpl; lia|done|done].
  - intros r0 act. split_and!; [done|by apply prefix_app_r|]. simpl.
    destruct (replies act); [|done]. by apply prefix_app_r.
Qed.

Lemma iterate_None (fuel : nat) (ps : list PolicyFn) (request : RequestData)
    (r : Run) :
  ps !! counter r = None → iterate fuel ps request r = r.
Proof.
  intros Hp. destruct fuel as [|fuel]; [done|]. cbn [iterate].
  destruct (ps !! counter r); by simplify_eq.
Qed.

(** The depth bound is never reached: with enough fuel for the policies
    that are left, more fuel changes nothing. *)
Lemma iterate_fuel (ps : list PolicyFn) (request : RequestData) (fuel : nat)
    (r : Run) :
  (length ps ≤ counter r + fuel)%nat →
  iterate (S fuel) ps request r = iterate fuel ps request r.
Proof.
  revert r. induction fuel as [|fuel IH]; intros r Hlen.
  { apply iterate_None, lookup_ge_None_2. simpl. lia. }
  destruct (ps !! counter r) as [policy|] eqn:Hp; [|by rewrite !iterate_None].
  rewrite (iterate_S (S fuel) _ _ _ policy Hp), (iterate_S fuel _ _ _ policy Hp).
  generalize (calls (policy request)).
  assert (∀ l r1, (counter r ≤ counter r1)%nat →
            foldl (serialDone (iterate (S fuel) ps request) (length ps)) r1 l
            = foldl (serialDone (iterate fuel ps request) (length ps)) r1 l)
    as Hfold; [|intros l; by apply Hfold].
  induction l as [|a l IHl]; intros r1 Hr1; [done|].
  rewrite !foldl_step.
  assert (serialDone (iterate (S fuel) ps request) (length ps) r1 a
          = serialDone (iterate fuel ps request) (length ps) r1 a) as ->.
  { unfold serialDone. destruct (checkPolicy a); [done|].
    case_bool_decide; [|done]. apply IH. simpl. lia. }
  apply IHl.
  pose proof (proj2 (iterate_follows ps request fuel r1) [a]) as (Hc & _).
  simpl in Hc. lia.
Qed.

(** One policy that continues, once and without responding by itself,
    moves the run on to the next position, or ends it. *)
Lemma iterate_continue (ps : list PolicyFn) (request : RequestData)
    (fuel : nat) (r : Run) (p : PolicyFn) (a : NextArgs) :
  ps !! counter r = Some p → replies (p request) = false →
  calls (p request) = [a] → checkPolicy a = None →
  iterate (S fuel) ps request r
  = let r1 := {| counter := S (counter r); handle := handle r;
                 invoked := invoked r ++ [(counter r, p request)] |} in
    if bool_decide (S (counter r) < length ps)%nat
    then iterate fuel ps request r1 else finish None r1.
Proof.
  intros Hp Hno Hcalls Hcheck. rewrite (iterate_S _ _ _ _ p Hp).
  rewrite Hcalls, Hno. simpl. unfold serialDone. by rewrite Hcheck.
Qed.

Lemma iterate_all_continue (ps : list PolicyFn) (request : RequestData)
    (fuel : nat) (r : Run) :
  Forall (λ p, replies (p request) = false
               ∧ ∃ a, next (p request) = Some a ∧ checkPolicy a = None) ps →
  (counter r < length ps)%nat → (length ps ≤ counter r + fuel)%nat →
  (invoked (iterate fuel ps request r)).*1
  = (invoked r).*1 ++ seq (counter r) (length ps - counter r)
  ∧ handle (iterate fuel ps request r) = callback None (handle r).
Proof.
  intros Hall. revert r. induction fuel as [|fuel IH]; intros r Hlt Hlen; [lia|].
  destruct (lookup_lt_is_Some_2 ps (counter r) Hlt) as [p Hp].
  destruct (Forall_lookup_1 _ _ _ _ Hall Hp) as (Hno & a & Ha%next_Some & Hcheck).
  rewrite (iterate_continue _ _ _ _ p a Hp Hno Ha Hcheck). simpl.
  case_bool_decide as Hmore.
  - destruct (IH {| counter := S (counter r); handle := handle r;
                    invoked := invoked r ++ [(counter r, p request)] |})
      as [Htr Hh]; [simpl; lia|simpl; lia|].
    rewrite Htr, Hh. simpl. split; [|done].
    rewrite fmap_app, <- app_assoc. simpl.
    replace (length ps - counter r) with (S (length ps - S (counter r))) by lia.
    done.
  - simpl. split; [|done].
    rewrite fmap_app. simpl.
    by replace (length ps - counter r) with 1 by lia.
Qed.

(** A run of policies that each continue once takes the run to the
    position after them, with nothing sent. *)
Lemma iterate_continue_prefix (ps : list PolicyFn) (request : RequestData)
    (k : nat) :
  ∀ fuel r,
    (∀ i, (counter r ≤ i < counter r + k)%nat →
          ∃ p a, ps !! i = Some p ∧ replies (p request) = false
                 ∧ calls (p request) = [a] ∧ checkPolicy a = None) →
    (counter r + k < length ps)%nat → (length ps ≤ counter r + fuel)%nat →
    ∃ r', iterate fuel ps request r = iterate (fuel - k) ps request r'
          ∧ counter r' = counter r + k
          ∧ handle r' = handle r.
Proof.
  induction k as [|k IH]; intros fuel r Hpre Hlt Hlen.
  { exists r. by rewrite Nat.sub_0_r, Nat.add_0_r. }
  destruct fuel as [|fuel]; [lia|].
  destruct (Hpre (counter r)) as (p & a & Hp & Hno & Ha & Hcheck); [lia|].
  rewrite (iterate_continue _ _ _ _ p a Hp Hno Ha Hcheck). simpl.
  rewrite bool_decide_eq_true_2 by lia.
  destruct (IH fuel {| counter := S (counter r); handle := handle r;
                       invoked := invoked r ++ [(counter r, p request)] |})
    as (r' & Hrun & Hc & Hh); [|simpl; lia|simpl; lia|].
  { intros i Hi. apply Hpre. simpl in Hi. lia. }
  exists r'. simpl in *. split_and!; [done|lia|done].
Qed.

Lemma iterate_twice (fuel : nat) (ps : list PolicyFn) (request : RequestData)
    (r : Run) (p q : PolicyFn) (a b : NextArgs) (e : Err) :
  ps !! counter r = Some p → ps !! S (counter r) = Some q →
  replies (p request) = false →
  calls (p request) = [a; b] → checkPolicy a = Some e → checkPolicy b = None →
  iterate (S (S fuel)) ps request r
  = foldl (serialDone (iterate fuel ps request) (length ps))
      {| counter := S (counter r);
         handle := if replies (q request)
                   then respond PolicyResponse (callback (Some e) (handle r))
                   else callback (Some e) (handle r);
         invoked := (invoked r ++ [(counter r, p request)])
                    ++ [(S (counter r), q request)] |}
      (calls (q request)).
Proof.
  intros Hp Hq Hno Hcalls Ha Hb.
  rewrite (iterate_S _ _ _ _ p Hp), Hcalls, Hno, !foldl_step.
  change (foldl ?f ?x []) with x.
  unfold serialDone at 2. rewrite Ha.
  unfold serialDone at 1. rewrite Hb.
  cbn [counter finish].
  rewrite bool_decide_eq_true_2 by (by apply lookup_lt_Some in Hq).
  by erewrite iterate_S by exact Hq.
Qed.

(** C6, as the code has it: a policy that calls its continuation with a
    rejection and then once more with success, as an aggregate with the
    default error handler does when one of its policies rejects, gets
    the denial sent, and the policy listed after it is invoked all the
    same.  The policies before it each continue, and no response has
    been produced when the run starts. *)
Theorem runPolicies_second_call_runs_next (pre post : list PolicyFn)
    (p q : PolicyFn) (request : RequestData) (reply : Reply) (a b : NextArgs)
    (e : Err) :
  _replied reply = false →
  Forall (λ p, replies (p request) = false
               ∧ ∃ a, next (p request) = Some a ∧ checkPolicy a = None) pre →
  replies (p request) = false →
  calls (p request) = [a; b] → checkPolicy a = Some e → checkPolicy b = None →
  (length pre, p request) ∈ (runPolicies (pre ++ p :: q :: post) request reply).1
  ∧ (S (length pre), q request)
    ∈ (runPolicies (pre ++ p :: q :: post) request reply).1
  ∧ ∃ more, sent (runPolicies (pre ++ p :: q :: post) request reply).2
            = sent reply ++ Respond e :: more.
Proof.
  intros Hfresh Hpre Hno Hcalls Ha Hb. unfold runPolicies.
  set (ps := pre ++ p :: q :: post).
  assert (length ps = length pre + S (S (length post))) as Hlen.
  { unfold ps. rewrite length_app. simpl. lia. }
  rewrite bool_decide_eq_false_2 by lia.
  destruct (iterate_continue_prefix ps request (length pre) (length ps)
              {| counter := 0; handle := reply; invoked := [] |})
    as (r' & -> & Hc & Hh); [|simpl; lia|simpl; lia|].
  { simpl. intros i Hi.
    destruct (lookup_lt_is_Some_2 pre i) as [p0 Hp0]; [lia|].
    destruct (Forall_lookup_1 _ _ _ _ Hpre Hp0)
      as (Hno0 & a0 & Ha0%next_Some & Hcheck0).
    exists p0, a0. split_and!; try done.
    unfold ps. apply lookup_app_l_Some, Hp0. }
  simpl in Hc, Hh.
  assert (ps !! counter r' = Some p) as Hp.
  { rewrite Hc. unfold ps. by rewrite list_lookup_middle. }
  assert (ps !! S (counter r') = Some q) as Hq.
  { rewrite Hc. unfold ps.
    rewrite lookup_app_r by lia.
    by replace (S (length pre) - length pre) with 1 by lia. }
  replace (length ps - length pre) with (S (S (length post))) by lia.
  rewrite (iterate_twice _ _ _ _ p q a b e Hp Hq Hno Hcalls Ha Hb).
  match goal with
  | |- context [foldl ?f ?r0 ?l] =>
      pose proof (proj2 (iterate_follows ps request (length post) r0) l)
        as (_ & [tr Htr] & Hsent)
  end.
  cbn [invoked handle] in Htr, Hsent. cbn [fst snd]. rewrite Htr, <- Hc.
  split_and!.
  - rewrite !elem_of_app, !list_elem_of_singleton. by left; left; right.
  - rewrite !elem_of_app, !list_elem_of_singleton. by left; right.
  - assert (sent reply ++ [Respond e]
            `prefix_of` sent (if replies (q request)
                              then respond PolicyResponse
                                     (callback (Some e) (handle r'))
                              else callback (Some e) (handle r'))) as Hq'.
    { rewrite Hh. unfold callback. rewrite Hfresh.
      destruct (replies (q request)); simpl; [by apply prefix_app_r|done]. }
    destruct (transitivity Hq' Hsent) as [more ->].
    exists more. by rewrite <- app_assoc.
Qed.

(** The shape of a serial run in which every policy invoked calls its
    continuation at most once and none responds by itself: the policies
    invoked are those at consecutive positions, every one but the last
    called back to continue, and the response is read off the last one. *)
Lemma iterate_once (ps : list PolicyFn) (request : RequestData) (fuel : nat)
    (r : Run) :
  (counter r < length ps)%nat → (length ps ≤ counter r + fuel)%nat →
  ∃ new,
    invoked (iterate fuel ps request r) = invoked r ++ new
    ∧ (Forall (λ x, replies x.2 = false ∧ (length (calls x.2) ≤ 1)%nat) new →
       new.*1 = seq (counter r) (length new)
       ∧ ∀ j act, (j, act) ∈ new →
           (∃ a, calls act = [a] ∧ checkPolicy a = None)
           ∨ (S j = counter r + length new
              ∧ handle (iterate fuel ps request r)
                = match calls act with
                  | [] => handle r
                  | a :: _ => callback (checkPolicy a) (handle r)
                  end)).
Proof.
  revert r. induction fuel as [|fuel IH]; intros r Hlt Hlen; [lia|].
  destruct (lookup_lt_is_Some_2 ps (counter r) Hlt) as [p Hp].
  rewrite (iterate_S _ _ _ _ p Hp).
  destruct (calls (p request)) as [|a [|b l]] eqn:Hcalls.
  - exists [(counter r, p request)]. simpl. split; [done|].
    intros [[Hno _] _]%Forall_cons. simpl in Hno. rewrite Hno.
    split; [done|]. intros j act [= -> ->]%list_elem_of_singleton. right.
    rewrite Hcalls. split; [lia|done].
  - simpl. unfold serialDone.
    destruct (checkPolicy a) as [e|] eqn:Hcheck.
    + exists [(counter r, p request)]. simpl. split; [done|].
      intros [[Hno _] _]%Forall_cons. simpl in Hno. rewrite Hno.
      split; [done|]. intros j act [= -> ->]%list_elem_of_singleton. right.
      rewrite Hcalls, Hcheck. split; [lia|done].
    + simpl. case_bool_decide as Hmore.
      * destruct (IH {| counter := S (counter r);
                        handle := if replies (p request)
                                  then respond PolicyResponse (handle r)
                                  else handle r;
                        invoked := invoked r ++ [(counter r, p request)] |})
          as (new & Hinv & Hnew); [simpl; lia|simpl; lia|].
        exists ((counter r, p request) :: new). simpl in *.
        split; [by rewrite Hinv, <- app_assoc|].
        intros [[Hno _] Hall]%Forall_cons. simpl in Hno.
        rewrite Hno in Hnew |- *.
        destruct (Hnew Hall) as [Hpos Hlast]. split; [f_equal; exact Hpos|].
        intros j act [[= -> ->]|Hin]%elem_of_cons; [left; eauto|].
        destruct (Hlast j act Hin) as [?|[Hj Hh]]; [by left|right].
        split; [lia|done].
      * exists [(counter r, p request)]. simpl. split; [done|].
        intros _. split; [done|].
        intros j act [= -> ->]%list_elem_of_singleton. left. eauto.
  - destruct (proj2 (iterate_follows ps request fuel
                      {| counter := counter r;
                         handle := if replies (p request)
                                   then respond PolicyResponse (handle r)
                                   else handle r;
                         invoked := invoked r ++ [(counter r, p request)] |})
                (a :: b :: l)) as (_ & [tr Htr] & _).
    cbn [invoked] in Htr. exists ((counter r, p request) :: tr).
    split; [by rewrite Htr, <- app_assoc|].
    intros [[_ Hle] _]%Forall_cons. simpl in Hle. rewrite Hcalls in Hle.
    simpl in Hle. lia.
Qed.

(** *** Aggregation *)

Lemma uniq_length_NoDup `{EqDecision A} (l : list A) :
  length (uniq l) = length l → NoDup l.
Proof.
  intros Hlen. unfold uniq in Hlen.
  assert (remove_dups l ⊆+ l) as Hsub.
  { apply NoDup_submseteq; [apply NoDup_remove_dups|].
    intros x. by rewrite elem_of_remove_dups. }
  apply submseteq_length_Permutation in Hsub; [|lia].
  rewrite <- Hsub. apply NoDup_remove_dups.
Qed.

Lemma handlerAndNames_snoc (names : list Arg) (f : nat) :
  handlerAndNames (names ++ [AFunction f]) = (CustomErrorHandler f, names).
Proof.
  unfold handlerAndNames. by rewrite last_snoc, removelast_last.
Qed.

(** C9, as the code has it: [parallel] called without any argument fails
    its first assertion, and a call with arguments whose policy names are
    not pairwise distinct fails the uniqueness assertion; the names are
    the arguments without a final function, which is the error handler.
    A call with an error handler as its only argument has no name and is
    accepted. *)
Theorem parallel_assertions (args : list Arg) :
  (args = [] → parallel args = Throw "Requires at least one argument.")
  ∧ (args ≠ [] → ¬ NoDup (handlerAndNames args).2 →
     parallel args = Throw "Listed policies must be unique.")
  ∧ (∀ names f, args = names ++ [AFunction f] →
                handlerAndNames args = (CustomErrorHandler f, names))
  ∧ (∀ f, args = [AFunction f] →
          parallel args
          = Ok {| applyPoint := JUndefined; runs := Some [];
                  impl := AggregatePolicy [] (CustomErrorHandler f) |}).
Proof.
  split_and!.
  - by intros ->.
  - intros Hargs Hdup. unfold parallel.
    rewrite bool_decide_eq_false_2 by by destruct args.
    destruct (handlerAndNames args) as [h names]. simpl in Hdup.
    rewrite bool_decide_eq_false_2; [done|].
    intros Hlen. by apply Hdup, uniq_length_NoDup.
  - intros names f ->. apply handlerAndNames_snoc.
  - by intros f ->.
Qed.

(** *** Further properties *)

(** X1: a route without a policy list is let through at once, and nothing
    is run. *)
Theorem handler_no_policies (p : ApplyPoint) (req : Request) (st : State) :
  routePolicies req = None → handler p req st = (Continued, st).
Proof. intros Hroute. unfold handler. by rewrite Hroute. Qed.

(** X3: in every state the module can reach, as long as no policy is
    registered under ["__proto__"], each registered name is a key of
    exactly one bucket. *)
Theorem reachable_names_in_one_bucket (st : State) (n : string) :
  reachable st → "__proto__" ∉ names (oData st) → n ∈ names (oData st) →
  ∃ p, AName n ∈ keys (bucket (oData st) p)
       ∧ ∀ q, AName n ∈ keys (bucket (oData st) q) → q = p.
Proof.
  intros Hwf%reachable_wf _ Hn.
  apply (wf_bucket _ Hwf) in Hn as [p Hp]. exists p.
  split; [by apply elem_of_keys|].
  intros q Hq%elem_of_keys. by eapply wf_disjoint.
Qed.

(** X4: a policy whose [applyPoint] is a string that names none of the
    six points (and is not empty) is refused with an error that quotes
    the string, and the registry stays as it was. *)
Theorem addPolicy_invalid_applyPoint (dflt : ApplyPoint) (file : File)
    (st : State) (name s : string) :
  matchJs (filename file) = Some name →
  name ∉ names (oData st) →
  applyPoint (module file) = JStr s →
  hasValidApplyPoint (module file) = false →
  (addPolicy dflt file st).1
  = Some (JsError ("Trying to set incorrect applyPoint for the policy: " +:+ s))
  ∧ oData (addPolicy dflt file st).2 = oData st
  ∧ exts (server (addPolicy dflt file st).2) = exts (server st).
Proof.
  intros Hname Hfresh Hs Hvalid. unfold addPolicy. rewrite Hname.
  rewrite bool_decide_eq_false_2 by done. by rewrite Hvalid, Hs.
Qed.

Lemma remove_dups_length_NoDup `{EqDecision A} (l : list A) :
  NoDup l → length (remove_dups l) = length l.
Proof.
  induction 1 as [|x l Hx _ IH]; [done|].
  simpl. destruct (decide_rel elem_of x l); [done|]. simpl. by rewrite IH.
Qed.

(** [parallel] applied to an accepted array of names builds the aggregate
    with the default error handler. *)
Lemma parallel_names (l : list Arg) :
  l ≠ [] → NoDup l → (∀ x, x ∈ l → ∃ n, x = AName n) →
  parallel l = Ok {| applyPoint := JUndefined; runs := Some l;
                     impl := AggregatePolicy l DefaultErrorHandler |}.
Proof.
  intros Hne Hnd Hnames. unfold parallel.
  rewrite bool_decide_eq_false_2 by by destruct l.
  assert (handlerAndNames l = (DefaultErrorHandler, l)) as ->.
  { unfold handlerAndNames. destruct (last l) as [x|] eqn:Hlast; [|done].
    apply last_Some_elem_of, Hnames in Hlast as [n ->]. done. }
  by rewrite bool_decide_eq_true_2 by by apply remove_dups_length_NoDup.
Qed.

(** X5: an array of names in a route is turned into an aggregate by the
    handler of the point the names belong to, and passed over by the
    handlers of the other points. *)
Theorem handler_dispatches_aggregate (p s : ApplyPoint) (req : Request)
    (st : State) (l : list Arg) :
  cache_coherent st →
  aggregateApplyPoint (oData st) l = Ok s →
  routePolicies req = Some [EArray l] →
  (handler p req st).1
  = RunPolicies
      (if decide (s = p)
       then [{| applyPoint := JUndefined; runs := Some l;
                impl := AggregatePolicy l DefaultErrorHandler |}]
       else []).
Proof.
  intros Hc Hres Hroute. unfold handler. rewrite Hroute. simpl.
  pose proof (determine_coherent_result l st Hc) as Hd. rewrite Hres in Hd.
  destruct (determineAggregateApplyPoint l st) as [r st1]. simpl in Hd. subst r.
  case_bool_decide as Hp; case_decide; try done.
  assert (length (intersection (keys (bucket (oData st) s)) l) = length l)
    as Hall.
  { unfold aggregateApplyPoint in Hres. destruct l as [|x l0]; [done|].
    case_bool_decide; [|done]. simpl in Hres.
    destruct (firstPoint (oData st) x) as [r|]; [|done].
    case_bool_decide; [|done]. by injection Hres as ->. }
  rewrite parallel_names.
  - unfold classifyFunction, hasValidApplyPoint, effectivePoint. simpl.
    by rewrite bool_decide_eq_true_2 by by subst.
  - intros ->. done.
  - by eapply intersection_NoDup.
  - intros x Hx. apply (intersection_full _ _ Hall) in Hx.
    apply elem_of_keys_inv in Hx as (n & -> & _). eauto.
Qed.

(** X6: when every policy continues and none responds by itself, all of
    them are invoked in order and the request is let through. *)
Theorem runPolicies_all_continue (ps : list PolicyFn) (request : RequestData)
    (reply : Reply) :
  _replied reply = false →
  Forall (λ p, replies (p request) = false
               ∧ ∃ a, next (p request) = Some a ∧ checkPolicy a = None) ps →
  (runPolicies ps request reply).1.*1 = seq 0 (length ps)
  ∧ (runPolicies ps request reply).2 = respond Continue reply.
Proof.
  intros Hfresh Hall. unfold runPolicies.
  case_bool_decide as Hlen.
  { destruct ps; [|done]. simpl. unfold callback. by rewrite Hfresh. }
  destruct (iterate_all_continue ps request (length ps)
              {| counter := 0; handle := reply; invoked := [] |} Hall)
    as [Htr Hh]; [simpl; lia|simpl; lia|].
  simpl in *. rewrite Htr, Hh, Nat.sub_0_r. unfold callback.
  by rewrite Hfresh.
Qed.

(** *** More on the resolver *)

Lemma intersection_length_full `{EqDecision A} (a l : list A) :
  NoDup l → (∀ x, x ∈ l → x ∈ a) → length (intersection a l) = length l.
Proof.
  intros Hnd Ha. apply Permutation_length, NoDup_Permutation; [|done|].
  - apply NoDup_filter, NoDup_remove_dups.
  - intros x. unfold intersection.
    rewrite list_elem_of_filter, elem_of_remove_dups.
    split; [by intros [? _]|]. intros Hx. split; [done|by apply Ha].
Qed.

Lemma aggregateApplyPoint_inv (d : Data) (l : list Arg) (ap : ApplyPoint) :
  aggregateApplyPoint d l = Ok ap →
  l ≠ []
  ∧ length (intersection (AName <$> names d) l) = length l
  ∧ length (intersection (keys (bucket d ap)) l) = length l.
Proof.
  unfold aggregateApplyPoint. destruct l as [|x l0]; [done|].
  case_bool_decide; [|done]. simpl.
  destruct (firstPoint d x) as [q|]; [|done].
  case_bool_decide; [|done]. by intros [= ->].
Qed.

(** X7: on a consistent registry the function under the memoization
    accepts an array, with point [ap], exactly when the array is not
    empty, lists no value twice, and holds only names from the bucket of
    [ap]. *)
Theorem aggregateApplyPoint_Ok_iff (d : Data) (l : list Arg) (ap : ApplyPoint) :
  registry_wf d →
  aggregateApplyPoint d l = Ok ap
  ↔ l ≠ [] ∧ NoDup l ∧ ∀ x, x ∈ l → x ∈ keys (bucket d ap).
Proof.
  intros Hwf. split.
  - intros (Hne & _ & Hall)%aggregateApplyPoint_inv.
    split_and!; [done|by eapply intersection_NoDup|by apply intersection_full].
  - intros (Hne & Hnd & Hin). unfold aggregateApplyPoint.
    destruct l as [|x l0]; [done|].
    rewrite (firstPoint_unique d x ap Hwf) by (apply Hin; left).
    rewrite !bool_decide_eq_true_2; [done| |].
    + by apply intersection_length_full.
    + apply intersection_length_full; [done|]. intros y Hy. apply Hin in Hy.
      apply elem_of_keys_inv in Hy as (n & -> & Hy).
      apply list_elem_of_fmap_2, (wf_bucket _ Hwf). eauto.
Qed.

(** X8: an array that lists a value twice, or holds anything that is not
    the name of a registered policy, fails the assertion on loaded
    policy names. *)
Theorem aggregateApplyPoint_not_loaded (d : Data) (l : list Arg) :
  l ≠ [] →
  ¬ NoDup l ∨ (∃ x, x ∈ l ∧ x ∉ AName <$> names d) →
  aggregateApplyPoint d l = Throw "Requires loaded policy names.".
Proof.
  intros Hne Hbad. unfold aggregateApplyPoint. destruct l as [|x l0]; [done|].
  rewrite bool_decide_eq_false_2; [done|]. intros Hlen.
  destruct Hbad as [Hdup|(y & Hy & Hny)].
  - by apply Hdup, (intersection_NoDup (AName <$> names d)).
  - by apply Hny, (intersection_full _ _ Hlen).
Qed.

(** X9: on a consistent registry, an array of distinct registered names
    two of which are in the buckets of different points fails the
    assertion on a common apply point. *)
Theorem aggregateApplyPoint_mixed (d : Data) (l : list Arg) (x y : Arg)
    (p q : ApplyPoint) :
  registry_wf d →
  NoDup l → (∀ z, z ∈ l → z ∈ AName <$> names d) →
  x ∈ l → y ∈ l → x ∈ keys (bucket d p) → y ∈ keys (bucket d q) → p ≠ q →
  aggregateApplyPoint d l
  = Throw "Aggregate policies must be from same applyPoint.".
Proof.
  intros Hwf Hnd Hreg Hx Hy Hxp Hyq Hne. unfold aggregateApplyPoint.
  destruct l as [|h l0]; [by apply elem_of_nil in Hx|].
  rewrite bool_decide_eq_true_2 by by apply intersection_length_full. simpl.
  assert (∃ r, h ∈ keys (bucket d r)) as [r Hr].
  { assert (h ∈ AName <$> names d) as Hh by (apply Hreg; left).
    apply list_elem_of_fmap in Hh as (n & -> & Hn).
    apply (wf_bucket _ Hwf) in Hn as [r Hn]. exists r. by apply elem_of_keys. }
  rewrite (firstPoint_unique d h r Hwf Hr).
  rewrite bool_decide_eq_false_2; [done|]. intros Hall.
  assert (∀ z s, z ∈ h :: l0 → z ∈ keys (bucket d s) → s = r) as Hsame.
  { intros z s Hz Hzs. apply (intersection_full _ _ Hall) in Hz.
    apply elem_of_keys_inv in Hz as (n & -> & Hn). apply elem_of_keys in Hzs.
    by eapply wf_disjoint. }
  apply Hne. by rewrite (Hsame x p), (Hsame y q).
Qed.

Lemma determine_cached (l : list Arg) (st : State) (ap : ApplyPoint) :
  (determineAggregateApplyPoint l st).1 = Ok ap →
  cacheGet (cacheKey l) (cache (determineAggregateApplyPoint l st).2) = Some ap.
Proof.
  intros Hres. unfold determineAggregateApplyPoint in *.
  destruct (cacheGet (cacheKey l) (cache st)) as [ap'|] eqn:Hc.
  - simpl in *. by injection Hres as ->.
  - destruct (aggregateApplyPoint (oData st) l) as [ap'|msg]; [|done].
    simpl in *. injection Hres as ->.
    by rewrite cacheGet_cons, decide_True.
Qed.

(** X11: registration does not touch the cache, so an answer the resolver
    has given stays the answer after any registration attempt. *)
Theorem determine_after_addPolicy (l : list Arg) (st : State) (ap : ApplyPoint)
    (dflt : ApplyPoint) (file : File) :
  (determineAggregateApplyPoint l st).1 = Ok ap →
  (determineAggregateApplyPoint l
     (addPolicy dflt file (determineAggregateApplyPoint l st).2).2).1 = Ok ap.
Proof.
  intros Hres.
  pose proof (determine_cached l st ap Hres) as Hget.
  unfold determineAggregateApplyPoint at 1.
  by rewrite (proj1 (addPolicy_spec dflt file _)), Hget.
Qed.

(** *** More on the handlers *)

Lemma classifyAll_done (p : ApplyPoint) (req : Request) (entries : list Entry)
    (acc : Acc) (st : State) :
  (∀ tmp, acc ≠ Collecting tmp) → classifyAll p req entries acc st = (acc, st).
Proof.
  intros Hacc. destruct entries as [|x entries]; [done|].
  simpl. destruct acc as [tmp| |]; [by destruct (Hacc tmp)|done|done].
Qed.

Lemma classifyAll_cons (p : ApplyPoint) (req : Request) (x : Entry)
    (rest : list Entry) (tmp : list Policy) (st : State) :
  classifyAll p req (x :: rest) (Collecting tmp) st
  = classifyAll p req rest (classify p req tmp x st).1
      (classify p req tmp x st).2.
Proof. simpl. by destruct (classify p req tmp x st). Qed.

Lemma classifyAll_app (p : ApplyPoint) (req : Request) (l1 l2 : list Entry)
    (acc : Acc) (st : State) :
  classifyAll p req (l1 ++ l2) acc st
  = classifyAll p req l2 (classifyAll p req l1 acc st).1
      (classifyAll p req l1 acc st).2.
Proof.
  revert acc st. induction l1 as [|x l1 IH]; intros acc st; [done|].
  simpl. destruct acc as [tmp|e|msg].
  - destruct (classify p req tmp x st) as [acc1 st1]. apply IH.
  - simpl. by rewrite classifyAll_done.
  - simpl. by rewrite classifyAll_done.
Qed.

(** X12: a handler changes neither the registry nor what has been done
    to the server; all it may leave behind is an entry in the cache. *)
Theorem handler_preserves_registry (p : ApplyPoint) (req : Request)
    (st : State) :
  oData (handler p req st).2 = oData st
  ∧ server (handler p req st).2 = server st.
Proof.
  apply (handler_invariant (λ s, oData s = oData st ∧ server s = server st));
    [|done].
  intros tmp x s [Hd Hs]. destruct (classify_oData p req tmp x s) as [-> ->].
  done.
Qed.

(** X13: an entry that is neither a name, nor a function, nor an array,
    nor [null] is answered with the bad-implementation error as soon as
    the entries before it have been classified; the entries after it
    are not looked at and nothing is run. *)
Theorem handler_malformed_entry (p : ApplyPoint) (req : Request) (st st1 : State)
    (pre post : list Entry) (tmp : list Policy) :
  routePolicies req = Some (pre ++ EOther :: post) →
  classifyAll p req pre (Collecting []) st = (Collecting tmp, st1) →
  handler p req st
  = (RepliedWith
       (badImplementation "Policy not specified by name or by function."),
     st1).
Proof.
  intros Hroute Hpre. unfold handler. rewrite Hroute, classifyAll_app, Hpre.
  simpl. by rewrite classifyAll_Replied.
Qed.

Lemma effectivePoint_valid (f : Policy) (fallback : ApplyPoint) :
  hasValidApplyPoint f = true →
  is_Some (effectivePoint (applyPoint f) fallback).
Proof.
  intros Hvalid. unfold effectivePoint, hasValidApplyPoint in *.
  destruct (truthy (applyPoint f)); [|by eauto].
  simpl in Hvalid. destruct (applyPoint f); try done.
  by apply bool_decide_eq_true in Hvalid.
Qed.

Lemma classifyAll_functions (p : ApplyPoint) (req : Request) (fs : list Policy)
    (tmp : list Policy) (st : State) :
  Forall (λ f, hasValidApplyPoint f = true
               ∧ (runs f = None ∨ truthy (applyPoint f) = true)) fs →
  classifyAll p req (EFunction <$> fs) (Collecting tmp) st
  = (Collecting
       (tmp ++ filter (λ f, effectivePoint (applyPoint f)
                              (serverDefaultApplyPoint req) = Some p) fs),
     st).
Proof.
  intros Hfs. revert tmp.
  induction Hfs as [|f fs [Hvalid Hruns] _ IH]; intros tmp.
  { simpl. by rewrite app_nil_r. }
  rewrite fmap_cons, classifyAll_cons.
  assert (classify p req tmp (EFunction f) st
          = (classifyFunction p (serverDefaultApplyPoint req) None f tmp, st))
    as ->.
  { unfold classify. destruct Hruns as [-> | ->]; [done|]. by destruct (runs f). }
  unfold classifyFunction. rewrite Hvalid. simpl.
  rewrite filter_cons.
  case_bool_decide; case_decide; try done; rewrite IH; by rewrite <- ?app_assoc.
Qed.

(** X14: of a route made of functions, each with a valid [applyPoint] or
    none, and each without [runs] or with an [applyPoint] of its own,
    the handler of a point runs exactly those whose point it is (the
    default apply point of the server when they name none), in the order
    of the route; so each function is run by the handler of one point
    only. *)
Theorem handler_inline_functions (p : ApplyPoint) (req : Request) (st : State)
    (fs : list Policy) :
  routePolicies req = Some (EFunction <$> fs) →
  Forall (λ f, hasValidApplyPoint f = true
               ∧ (runs f = None ∨ truthy (applyPoint f) = true)) fs →
  handler p req st
  = (RunPolicies
       (filter (λ f, effectivePoint (applyPoint f)
                       (serverDefaultApplyPoint req) = Some p) fs),
     st)
  ∧ Forall (λ f, ∃ q, effectivePoint (applyPoint f)
                        (serverDefaultApplyPoint req) = Some q) fs.
Proof.
  intros Hroute Hfs. split.
  - unfold handler. by rewrite Hroute, classifyAll_functions.
  - eapply Forall_impl; [exact Hfs|]. intros f [Hvalid _].
    by apply effectivePoint_valid.
Qed.




(** *** More on the serial executor *)

(** X17: in a run in which every policy invoked calls its continuation at
    most once and none responds by itself, when the policy at position
    [i] hands on an error or a rejection, no policy after it is invoked
    and the response is that error, or the denial, whatever the policy
    says about continuing. *)
Theorem runPolicies_error_aborts (ps : list PolicyFn) (request : RequestData)
    (reply : Reply) (i : nat) (act : PolicyAct) (a : NextArgs) (e : Err) :
  _replied reply = false →
  Forall (λ x, replies x.2 = false ∧ (length (calls x.2) ≤ 1)%nat)
    (runPolicies ps request reply).1 →
  (i, act) ∈ (runPolicies ps request reply).1 →
  next act = Some a → checkPolicy a = Some e →
  (runPolicies ps request reply).1.*1 = seq 0 (S i)
  ∧ (runPolicies ps request reply).2 = respond (Respond e) reply.
Proof.
  unfold runPolicies. intros Hfresh. case_bool_decide as Hlen.
  { simpl. by intros _ ?%elem_of_nil. }
  destruct (iterate_once ps request (length ps)
              {| counter := 0; handle := reply; invoked := [] |})
    as (new & Hinv & Hnew); [simpl; lia|simpl; lia|].
  cbn [fst snd]. rewrite Hinv. cbn [invoked app].
  intros Hall Hin Ha%next_Some Hcheck.
  destruct (Hnew Hall) as [Hpos Hlast].
  destruct (Hlast i act Hin) as [(a' & Ha' & Hnone)|[Hi Hh]].
  { rewrite Ha in Ha'. injection Ha' as <-. by rewrite Hcheck in Hnone. }
  rewrite Ha, Hcheck in Hh. simpl in Hi, Hh, Hpos.
  rewrite Hpos, Hh, <- Hi. unfold callback. by rewrite Hfresh.
Qed.

(** X18: in such a run, when the policy at position [i] is invoked and
    never calls its continuation, no policy after it is invoked and the
    executor produces no response at all. *)
Theorem runPolicies_pending (ps : list PolicyFn) (request : RequestData)
    (reply : Reply) (i : nat) (act : PolicyAct) :
  Forall (λ x, replies x.2 = false ∧ (length (calls x.2) ≤ 1)%nat)
    (runPolicies ps request reply).1 →
  (i, act) ∈ (runPolicies ps request reply).1 →
  calls act = [] →
  (runPolicies ps request reply).1.*1 = seq 0 (S i)
  ∧ (runPolicies ps request reply).2 = reply.
Proof.
  unfold runPolicies. case_bool_decide as Hlen.
  { simpl. by intros _ ?%elem_of_nil. }
  destruct (iterate_once ps request (length ps)
              {| counter := 0; handle := reply; invoked := [] |})
    as (new & Hinv & Hnew); [simpl; lia|simpl; lia|].
  cbn [fst snd]. rewrite Hinv. cbn [invoked app].
  intros Hall Hin Ha.
  destruct (Hnew Hall) as [Hpos Hlast].
  destruct (Hlast i act Hin) as [(a' & Ha' & _)|[Hi Hh]].
  { by rewrite Ha in Ha'. }
  rewrite Ha in Hh. simpl in Hi, Hh, Hpos.
  by rewrite Hpos, Hh, <- Hi.
Qed.


#[local] Instance answers_PreOrder : PreOrder answers.
Proof.
  split.
  - intros h. exists []. rewrite app_nil_r. split_and!; try done.
    simpl. lia.
  - intros h1 h2 h3 (l1 & Hs1 & Hown1 & Hpol1 & Hnil1 & Hcons1)
      (l2 & Hs2 & Hown2 & Hpol2 & Hnil2 & Hcons2).
    exists (l1 ++ l2). rewrite Hs2, Hs1, <- app_assoc.
    destruct l1 as [|x l1].
    + rewrite (Hnil1 eq_refl) in *. by split_and!.
    + pose proof (Hpol2 (Hcons1 ltac:(done))) as Hall2.
      assert (filter (λ x, x ≠ PolicyResponse) l2 = []) as Hnone.
      { clear -Hall2. induction Hall2 as [|y l2 -> _ IH]; [done|].
        rewrite filter_cons. by rewrite decide_False by (by intros ?). }
      split_and!; [done| | |done|].
      * by rewrite filter_app, Hnone, app_nil_r.
      * intros Hr. apply Forall_app. split; [by apply Hpol1|done].
      * intros _. destruct l2 as [|y l2]; [|by apply Hcons2].
        rewrite (Hnil2 eq_refl). by apply Hcons1.
Qed.



(** *** More on registration *)

Lemma pointOfName_pointName (p : ApplyPoint) : pointOfName (pointName p) = Some p.
Proof. by destruct p. Qed.

Lemma pointOfName_Some (s : string) (p : ApplyPoint) :
  pointOfName s = Some p → s = pointName p.
Proof.
  unfold pointOfName. intros [_ Hp]%find_some.
  by apply bool_decide_eq_true in Hp.
Qed.

(** X20: a policy passes the check of its apply point exactly when its
    [applyPoint] is falsy or is the name of one of the six points. *)
Theorem hasValidApplyPoint_spec (policy : Policy) :
  hasValidApplyPoint policy = true
  ↔ truthy (applyPoint policy) = false
    ∨ ∃ p, applyPoint policy = JStr (pointName p).
Proof.
  unfold hasValidApplyPoint. split.
  - intros [Hf|Hp]%orb_true_iff.
    + left. by apply negb_true_iff.
    + right. destruct (applyPoint policy) as [| | |s|]; try done.
      apply bool_decide_eq_true in Hp as [p Hp]. exists p.
      by rewrite (pointOfName_Some s p Hp).
  - intros [-> |[p ->]]; [done|]. rewrite pointOfName_pointName.
    rewrite bool_decide_eq_true_2 by eauto. apply orb_true_r.
Qed.

Lemma addPolicy_keeps (dflt : ApplyPoint) (file : File) (st : State)
    (n : string) (pol : Policy) :
  registry_wf (oData st) →
  (rawPolicies (oData st) !! n = Some pol →
   rawPolicies (oData (addPolicy dflt file st).2) !! n = Some pol)
  ∧ ∀ q, bucket (oData st) q !! n = Some pol →
         bucket (oData (addPolicy dflt file st).2) q !! n = Some pol.
Proof.
  intros Hwf.
  destruct (addPolicy_spec dflt file st) as [_ [[-> _]|Hadd]]; [done|].
  destruct Hadd as (name & ap & _ & _ & Hfresh & _ & -> & -> & _).
  split.
  - intros Hn. rewrite lookup_insert_ne; [done|]. intros ->.
    apply Hfresh, (wf_raw _ Hwf). eauto.
  - intros q Hn.
    assert (name ≠ n) as Hne.
    { intros ->. apply Hfresh, (wf_bucket _ Hwf). eauto. }
    destruct (decide (ap = q)) as [->|?].
    + by rewrite fn_lookup_insert, lookup_insert_ne.
    + by rewrite fn_lookup_insert_ne.
Qed.

(** X21: registering a valid policy under a fresh name, with an
    [applyPoint] that is [undefined] or truthy, raises no error, appends
    the name, and makes the policy the one found under that name among
    the raw policies and in the bucket of its point (the default one when
    it names none); what is found under other names is untouched.  The
    name is not ["__proto__"], and no policy is registered under it. *)
Theorem addPolicy_registers_at (dflt : ApplyPoint) (file : File) (st : State)
    (name : string) :
  name ≠ "__proto__" → "__proto__" ∉ names (oData st) →
  matchJs (filename file) = Some name →
  name ∉ names (oData st) →
  hasValidApplyPoint (module file) = true →
  applyPoint (module file) = JUndefined
  ∨ truthy (applyPoint (module file)) = true →
  ∃ ap, effectivePoint (applyPoint (module file)) dflt = Some ap
    ∧ (addPolicy dflt file st).1 = None
    ∧ names (oData (addPolicy dflt file st).2) = names (oData st) ++ [name]
    ∧ rawPolicies (oData (addPolicy dflt file st).2) !! name
      = Some (module file)
    ∧ bucket (oData (addPolicy dflt file st).2) ap !! name = Some (module file)
    ∧ ∀ n, n ≠ name →
           rawPolicies (oData (addPolicy dflt file st).2) !! n
           = rawPolicies (oData st) !! n
           ∧ ∀ q, bucket (oData (addPolicy dflt file st).2) q !! n
                  = bucket (oData st) q !! n.
Proof.
  intros _ _ Hname Hfresh Hvalid Hap.
  destruct (effectivePoint_valid (module file) dflt Hvalid) as [ap Hq].
  destruct (addPolicy_accepts dflt file st name ap Hname Hfresh Hvalid Hap Hq)
    as (Hok & Hn & Hr & Hb & _).
  exists ap. rewrite Hn, Hr, Hb.
  split_and!; [done|done|done|by rewrite lookup_insert_eq
              |by rewrite fn_lookup_insert, lookup_insert_eq|].
  intros n Hne. split; [by rewrite lookup_insert_ne|]. intros q.
  destruct (decide (ap = q)) as [->|?].
  - by rewrite fn_lookup_insert, lookup_insert_ne.
  - by rewrite fn_lookup_insert_ne.
Qed.

Lemma registrations_keeps (attempts : list (ApplyPoint * File)) (st : State)
    (n : string) (pol : Policy) :
  registry_wf (oData st) →
  (rawPolicies (oData st) !! n = Some pol →
   rawPolicies (oData (registrations attempts st)) !! n = Some pol)
  ∧ ∀ q, bucket (oData st) q !! n = Some pol →
         bucket (oData (registrations attempts st)) q !! n = Some pol.
Proof.
  revert st. induction attempts as [|a attempts IH]; intros st Hwf; [done|].
  simpl. destruct (addPolicy_keeps a.1 a.2 st n pol Hwf) as [Hr Hb].
  destruct (IH (addPolicy a.1 a.2 st).2 (addPolicy_wf _ _ _ Hwf)) as [Hr' Hb'].
  split; [by auto|]. intros q Hq. by apply Hb', Hb.
Qed.

(** X22: a registered policy is never replaced or removed by later
    registration attempts or [loadPolicies] calls: what is found under
    its name among the raw policies and in its bucket stays the same. *)
Theorem registered_policy_stays (st : State) (n : string) (pol : Policy)
    (q : ApplyPoint) :
  registry_wf (oData st) →
  rawPolicies (oData st) !! n = Some pol →
  bucket (oData st) q !! n = Some pol →
  (∀ attempts,
     rawPolicies (oData (registrations attempts st)) !! n = Some pol
     ∧ bucket (oData (registrations attempts st)) q !! n = Some pol)
  ∧ ∀ batches,
      rawPolicies (oData (loads batches st)) !! n = Some pol
      ∧ bucket (oData (loads batches st)) q !! n = Some pol.
Proof.
  intros Hwf Hr Hb.
  assert (∀ attempts,
            rawPolicies (oData (registrations attempts st)) !! n = Some pol
            ∧ bucket (oData (registrations attempts st)) q !! n = Some pol)
    as Hall.
  { intros attempts.
    destruct (registrations_keeps attempts st n pol Hwf) as [Hr' Hb']. auto. }
  split; [done|]. intros batches.
  destruct (loads_registrations batches st) as [attempts ->]. apply Hall.
Qed.

(** *** More on loading *)

Lemma loadPolicies_serial (options : Options) (st : State) :
  loadPolicies options st
  = serial (addPolicy (default onPreHandler (defaultApplyPoint options)))
      (policyDirectory options) st.
Proof. unfold loadPolicies. by destruct (policyDirectory options). Qed.

Lemma serial_app {T S : Type} (method : T → S → option Err * S)
    (l1 l2 : list T) (s : S) :
  serial method (l1 ++ l2) s
  = match serial method l1 s with
    | (Some e, s') => (Some e, s')
    | (None, s') => serial method l2 s'
    end.
Proof.
  revert s. induction l1 as [|t l1 IH]; intros s; [done|].
  simpl. by destruct (method t s) as [[e|] s'].
Qed.

Lemma addPolicy_error (dflt : ApplyPoint) (file : File) (st : State) (e : Err) :
  (addPolicy dflt file st).1 = Some e →
  oData (addPolicy dflt file st).2 = oData st
  ∧ exts (server (addPolicy dflt file st).2) = exts (server st).
Proof.
  intros He. destruct (addPolicy_spec dflt file st) as [_ [?|Hadd]]; [done|].
  destruct Hadd as (name & ap & Hnone & _). by rewrite Hnone in He.
Qed.

(** X23: [loadPolicies] stops at the first file that fails: when the files
    before it load without error and it fails with [e], the call returns
    [e], the files after it are not looked at, and the registry is left
    as the files before it made it (they stay registered). *)
Theorem loadPolicies_first_error (options : Options) (st st1 : State)
    (pre post : list File) (bad : File) (e : Err) :
  policyDirectory options = pre ++ bad :: post →
  loadPolicies {| defaultApplyPoint := defaultApplyPoint options;
                  policyDirectory := pre |} st = (None, st1) →
  (addPolicy (default onPreHandler (defaultApplyPoint options)) bad st1).1
  = Some e →
  (loadPolicies options st).1 = Some e
  ∧ oData (loadPolicies options st).2 = oData st1
  ∧ exts (server (loadPolicies options st).2) = exts (server st1).
Proof.
  intros Hdir Hpre Hbad. rewrite loadPolicies_serial in *. simpl in Hpre.
  rewrite Hdir, serial_app, Hpre. simpl.
  destruct (addPolicy_error _ bad st1 e Hbad) as [Hd Hx].
  destruct (addPolicy _ bad st1) as [e' st2]. simpl in *. by subst e'.
Qed.

(** X24: a directory without a single file ending in ".js" loads without
    error and changes nothing. *)
Theorem loadPolicies_without_js (options : Options) (st : State) :
  Forall (λ f, matchJs (filename f) = None) (policyDirectory options) →
  loadPolicies options st = (None, st).
Proof.
  rewrite loadPolicies_serial. generalize (policyDirectory options).
  induction 1 as [|f files Hf _ IH]; [done|].
  simpl. unfold addPolicy at 1. by rewrite Hf.
Qed.

Lemma serial_addPolicy_duplicate (dflt : ApplyPoint) (files : list File)
    (st : State) (f : File) (n : string) :
  f ∈ files → matchJs (filename f) = Some n → n ∈ names (oData st) →
  is_Some (serial (addPolicy dflt) files st).1.
Proof.
  intros Hf Hn. revert st.
  induction files as [|h files IH]; intros st Hin; [by apply elem_of_nil in Hf|].
  simpl. apply elem_of_cons in Hf as [<-|Hf].
  - assert (is_Some (addPolicy dflt f st).1) as [e He].
    { unfold addPolicy. rewrite Hn, bool_decide_eq_true_2 by done. by eexists. }
    destruct (addPolicy dflt f st) as [e' st1]. simpl in He. subst e'.
    by eexists.
  - pose proof (addPolicy_names_mono dflt h st n Hin) as Hin'.
    destruct (addPolicy dflt h st) as [[e|] st1]; [by eexists|]. by apply IH.
Qed.

Lemma addPolicy_registers_at_aux (dflt : ApplyPoint) (file : File)
    (st : State) (n : string) :
  matchJs (filename file) = Some n → n ∉ names (oData st) →
  applyPoint (module file) = JUndefined →
  n ∈ names (oData (addPolicy dflt file st).2)
  ∧ bucket (oData (addPolicy dflt file st).2) dflt !! n = Some (module file).
Proof.
  intros Hn Hfresh Hap. unfold addPolicy, hasValidApplyPoint, effectivePoint.
  rewrite Hn, Hap. rewrite bool_decide_eq_false_2 by done. simpl.
  destruct (negb (setHandlers (oData st) dflt)); simpl;
    rewrite elem_of_app, list_elem_of_singleton, fn_lookup_insert,
      lookup_insert_eq; auto.
Qed.

Lemma serial_addPolicy_keeps (dflt : ApplyPoint) (files : list File)
    (st : State) (n : string) (pol : Policy) (q : ApplyPoint) :
  registry_wf (oData st) →
  bucket (oData st) q !! n = Some pol →
  bucket (oData (serial (addPolicy dflt) files st).2) q !! n = Some pol.
Proof.
  revert st. induction files as [|h files IH]; intros st Hwf Hq; [done|].
  simpl. pose proof (addPolicy_wf dflt h st Hwf) as Hwf'.
  pose proof (proj2 (addPolicy_keeps dflt h st n pol Hwf) q Hq) as Hq'.
  destruct (addPolicy dflt h st) as [[e|] st1]; [done|]. by apply IH.
Qed.

(** After a load that raised no error, a policy without [applyPoint]
    whose name was fresh is in the bucket of the default apply point. *)
Lemma serial_addPolicy_at_default (dflt : ApplyPoint) (files : list File)
    (st : State) (f : File) (n : string) :
  registry_wf (oData st) →
  (serial (addPolicy dflt) files st).1 = None →
  f ∈ files → matchJs (filename f) = Some n → n ∉ names (oData st) →
  applyPoint (module f) = JUndefined →
  bucket (oData (serial (addPolicy dflt) files st).2) dflt !! n
  = Some (module f).
Proof.
  intros Hwf Hnone Hf Hn Hfresh Hap. revert st Hwf Hnone Hfresh.
  induction files as [|h files IH]; intros st Hwf Hnone Hfresh;
    [by apply elem_of_nil in Hf|].
  simpl in *. pose proof (addPolicy_wf dflt h st Hwf) as Hwf'.
  destruct (decide (n ∈ names (oData (addPolicy dflt h st).2))) as [Hin|Hout].
  - (* the head registered the name: it is [f] itself, or [f] comes later
       and would be a duplicate *)
    destruct (addPolicy_spec dflt h st) as [_ [[Hd _]|Hadd]].
    { by rewrite Hd in Hin. }
    destruct Hadd as (name & ap & _ & Hh & _ & Hnames & _ & Hb & _).
    assert (name = n) as ->.
    { rewrite Hnames, elem_of_app, list_elem_of_singleton in Hin.
      by destruct Hin. }
    apply elem_of_cons in Hf as [->|Hf].
    + assert (bucket (oData (addPolicy dflt h st).2) dflt !! n
              = Some (module h)) as Hq.
      { destruct (addPolicy_registers_at_aux dflt h st n Hn Hfresh Hap)
          as [Hap' Hq]. done. }
      destruct (addPolicy dflt h st) as [[e|] st1]; [done|].
      by apply serial_addPolicy_keeps.
    + pose proof (serial_addPolicy_duplicate dflt files
                    (addPolicy dflt h st).2 f n Hf Hn Hin) as [e He].
      destruct (addPolicy dflt h st) as [[e'|] st1]; [done|].
      simpl in *. by rewrite He in Hnone.
  - apply elem_of_cons in Hf as [->|Hf].
    + destruct (addPolicy_registers_at_aux dflt h st n Hn Hfresh Hap)
        as [Hin _]. done.
    + destruct (addPolicy dflt h st) as [[e|] st1]; [done|]. by apply IH.
Qed.

(** *** The plugin entry point *)

(** X25: [register] refuses a default apply point that is a string naming
    none of the six points (and is not empty); the assertion, which
    quotes the string, fails before anything is loaded. *)
Theorem register_invalid_default (options : PluginOptions) (st : State)
    (s : string) :
  pluginDefaultApplyPoint options = JStr s →
  s ≠ "" → (∀ p, s ≠ pointName p) →
  register options st
  = Throw ("Specified invalid defaultApplyPoint: " +:+ s).
Proof.
  intros Hs Hne Hbad. unfold register. rewrite Hs. simpl.
  rewrite bool_decide_eq_false_2 by done. simpl.
  destruct (pointOfName s) as [p|] eqn:Hp; [|done].
  destruct (Hbad p). by apply pointOfName_Some.
Qed.

(** X26: when [register] succeeds and its load raises no error, the
    default apply point it exposes is the one the options name, or
    [onPreHandler] when they name none, and every policy of the directory
    that has no [applyPoint] and whose name was fresh is in the bucket of
    that very point. *)
Theorem register_loads_at_default (options : PluginOptions) (st st' : State)
    (dflt : ApplyPoint) (files : list File) (f : File) (n : string) :
  registry_wf (oData st) →
  register options st = Ok (dflt, (None, st')) →
  pluginPolicyDirectory options = Some files →
  f ∈ files → matchJs (filename f) = Some n → n ∉ names (oData st) →
  applyPoint (module f) = JUndefined →
  effectivePoint (pluginDefaultApplyPoint options) onPreHandler = Some dflt
  ∧ bucket (oData st') dflt !! n = Some (module f).
Proof.
  intros Hwf Hreg Hdir Hf Hn Hfresh Hap. unfold register in Hreg.
  rewrite Hdir in Hreg.
  assert (effectivePoint (pluginDefaultApplyPoint options) onPreHandler
          = Some dflt
          ∧ loadPolicies {| defaultApplyPoint := Some dflt;
                            policyDirectory := files |} st = (None, st'))
    as [Hd Hload].
  { unfold effectivePoint.
    destruct (truthy (pluginDefaultApplyPoint options)).
    - destruct (pluginDefaultApplyPoint options) as [| | |s|]; try done.
      destruct (pointOfName s) as [p|]; [|done].
      injection Hreg as -> Hreg. by rewrite Hreg.
    - simpl in Hreg. injection Hreg as <- Hreg. by rewrite Hreg. }
  split; [done|]. rewrite loadPolicies_serial in Hload. simpl in Hload.
  pose proof (serial_addPolicy_at_default dflt files st f n Hwf) as Hat.
  rewrite Hload in Hat. by apply Hat.
Qed.

(** *** Reset and the connected handlers *)

Lemma registrations_connections_from (attempts : list (ApplyPoint * File))
    (st0 : State) (p : ApplyPoint) :
  (∀ q, setHandlers (oData st0) q = false) →
  connections p (server (registrations attempts st0))
  = connections p (server st0)
    + if setHandlers (oData (registrations attempts st0)) p then 1 else 0.
Proof.
  intros Hnone.
  induction attempts as [|a attempts IH] using rev_ind.
  { simpl. rewrite Hnone. lia. }
  rewrite registrations_snoc.
  set (st := registrations attempts st0) in *.
  destruct (addPolicy_spec a.1 a.2 st) as [_ [[Hd He]|Hadd]].
  - unfold connections in *. by rewrite Hd, He.
  - destruct Hadd as (name & ap & _ & _ & _ & _ & _ & _ & Hs & He).
    unfold connections at 1. rewrite He, connections_app, IH, Hs.
    case_decide as Hp.
    + subst p. destruct (setHandlers (oData st) ap); simpl; [lia|].
      destruct (ApplyPoint_eq_dec ap ap); [lia|done].
    + destruct (setHandlers (oData st) ap); simpl.
      * lia.
      * destruct (ApplyPoint_eq_dec ap p); [by subst|lia].
Qed.

(** X27: [reset] forgets which handlers are connected but does not
    disconnect them.  A registration that passes every check of
    [addPolicy] right after a [reset] connects the handler of its point
    once more; and after any attempts that follow a [reset], none of
    them for a file named [__proto__.js], the handler of a point has
    been connected once more than before exactly when the bucket of the
    point has been filled again. *)
Theorem reload_connects_again (st : State)
    (attempts : list (ApplyPoint * File)) (dflt : ApplyPoint) (file : File)
    (name : string) (p : ApplyPoint) :
  Forall (λ a, matchJs (filename a.2) ≠ Some "__proto__") attempts →
  matchJs (filename file) = Some name →
  hasValidApplyPoint (module file) = true →
  applyPoint (module file) = JUndefined
  ∨ truthy (applyPoint (module file)) = true →
  effectivePoint (applyPoint (module file)) dflt = Some p →
  connections p (server (addPolicy dflt file (reset st)).2)
  = connections p (server st) + 1
  ∧ connections p (server (registrations attempts (reset st)))
    = connections p (server st)
      + (if decide (bucket (oData (registrations attempts (reset st))) p = ∅)
         then 0 else 1).
Proof.
  intros _ Hname Hvalid Hap Hp. split.
  - destruct (addPolicy_accepts dflt file (reset st) name p Hname)
      as (_ & _ & _ & _ & _ & He); [by intros ?%elem_of_nil|done|done|done|].
    unfold connections at 1. rewrite He, connections_app. simpl.
    by destruct (ApplyPoint_eq_dec p p).
  - rewrite registrations_connections_from by done.
    pose proof (wf_setHandlers _
                  (registrations_wf attempts (reset st) emptyData_wf) p) as Hset.
    change (server (reset st)) with (server st). f_equal.
    destruct (setHandlers _ p); case_decide as He; try done.
    + by apply Hset in He.
    + assert (false = true) by by apply Hset. done.
Qed.

(** *** More on aggregation *)

(** X28: [parallel] succeeds exactly when it is given at least one
    argument and the policy names among them are pairwise distinct; the
    function it returns has no [applyPoint], reports the names as its
    [runs], and uses the final function, if any, as its error handler. *)
Theorem parallel_Ok_iff (args : list Arg) (aggregate : Policy) :
  parallel args = Ok aggregate
  ↔ args ≠ [] ∧ NoDup (handlerAndNames args).2
    ∧ aggregate = {| applyPoint := JUndefined;
                     runs := Some (handlerAndNames args).2;
                     impl := AggregatePolicy (handlerAndNames args).2
                               (handlerAndNames args).1 |}.
Proof.
  unfold parallel. destruct (handlerAndNames args) as [h names]. simpl.
  case_bool_decide as Hlen.
  { split; [done|]. intros [Hne _]. by destruct args. }
  case_bool_decide as Huniq.
  - split.
    + intros [= <-]. split_and!; [by intros ->|by apply uniq_length_NoDup|done].
    + by intros (_ & _ & ->).
  - split; [done|]. intros (_ & Hnd & _). destruct Huniq.
    by apply remove_dups_length_NoDup.
Qed.

(** X29: when a listed name has no result, and no name before it has
    failed, the default error handler throws on reading the missing
    result and does not call [next] at all.  The name is not one that
    [results] inherits a value under from [Object.prototype], and no
    result has been stored under ["__proto__"]. *)
Theorem defaultErrorHandler_missing_result (pre post : list string)
    (n : string) (results : gmap string NextArgs) :
  Forall (λ m, ∃ r', results !! m = Some r' ∧ err r' = None
                     ∧ canContinue r' = true) pre →
  results !! "__proto__" = None →
  results !! n = None → n ∉ objectPrototypeKeys →
  defaultErrorHandler (pre ++ n :: post) results = ([], true).
Proof.
  intros Hpre _ Hn Hproto. unfold defaultErrorHandler.
  assert (forEachRan (pre ++ n :: post) results = ([], TypeError)) as ->; [|done].
  induction Hpre as [|m pre (r' & Hm & He & Hc) _ IH]; simpl.
  - by rewrite readProperty_None.
  - by rewrite (readProperty_own _ _ _ _ Hm), He, Hc.
Qed.

End Engine.

(** * The properties on sample data *)

Ltac not_listed :=
  vm_compute; intros Hin;
  repeat (inversion Hin as [|? ? ? Hin']; subst; clear Hin;
          try rename Hin' into Hin).

Lemma loaded_wf : registry_wf (oData (loaded (K := list Arg))).
Proof.
  apply (reachable_wf arrayKey), loadPolicies_reachable, reach_init.
Qed.

Lemma resolver_order_insensitive_witness :
  registry_wf (oData (loaded (K := list Arg)))
  ∧ cache_coherent arrayKey loaded
  ∧ [AName "isAdmin"; AName "isLoggedIn"] ≡ₚ [AName "isLoggedIn"; AName "isAdmin"]
  ∧ (determineAggregateApplyPoint arrayKey
       [AName "isAdmin"; AName "isLoggedIn"] loaded).1 = Ok onPreHandler
  ∧ (determineAggregateApplyPoint arrayKey
       [AName "isLoggedIn"; AName "isAdmin"] loaded).1 = Ok onPreHandler.
Proof.
  assert (cache_coherent arrayKey (loaded (K := list Arg))) as Hc.
  { intros l ap. by vm_compute. }
  assert ([AName "isAdmin"; AName "isLoggedIn"]
          ≡ₚ [AName "isLoggedIn"; AName "isAdmin"]) as Hp by apply perm_swap.
  assert ((determineAggregateApplyPoint arrayKey
             [AName "isAdmin"; AName "isLoggedIn"] loaded).1 = Ok onPreHandler)
    as Hres by by vm_compute.
  split_and!; [apply loaded_wf|done|done|done|].
  exact (resolver_order_insensitive arrayKey loaded _ _ _ loaded_wf Hc Hp Hres).
Defined.

Lemma addPolicy_duplicate_witness :
  matchJs (filename isAdmin) = Some "isAdmin"
  ∧ "isAdmin" ∈ names (oData (loaded (K := list Arg)))
  ∧ (addPolicy onPreHandler isAdmin (loaded (K := list Arg))).1
    = Some (JsError "Trying to add a duplicate policy: isAdmin")
  ∧ oData (addPolicy onPreHandler isAdmin (loaded (K := list Arg))).2
    = oData (loaded (K := list Arg)).
Proof.
  assert (matchJs (filename isAdmin) = Some "isAdmin") as Hname by by vm_compute.
  assert ("isAdmin" ∈ names (oData (loaded (K := list Arg)))) as Hin.
  { vm_compute. left. }
  destruct (addPolicy_duplicate onPreHandler isAdmin (loaded (K := list Arg))
              "isAdmin" Hname Hin) as (He & Hd & _).
  by split_and!.
Defined.

Lemma addPolicy_falsy_applyPoint_witness :
  registry_wf (oData (loaded (K := list Arg)))
  ∧ matchJs (filename disabled) = Some "disabled"
  ∧ ("disabled" ∉ names (oData (loaded (K := list Arg))))
  ∧ applyPoint (module disabled) ≠ JUndefined
  ∧ truthy (applyPoint (module disabled)) = false
  ∧ addPolicy onPreHandler disabled (loaded (K := list Arg)) = (None, loaded)
  ∧ (AName "disabled"
     ∉ keys (rawPolicies (oData (addPolicy onPreHandler disabled
                                   (loaded (K := list Arg))).2))).
Proof.
  assert (matchJs (filename disabled) = Some "disabled") as Hname by by vm_compute.
  assert ("disabled" ∉ names (oData (loaded (K := list Arg)))) as Hfresh
    by not_listed.
  assert (applyPoint (module disabled) ≠ JUndefined) as Hdef by done.
  assert (truthy (applyPoint (module disabled)) = false) as Hfalsy by done.
  destruct (addPolicy_falsy_applyPoint onPreHandler disabled
              (loaded (K := list Arg)) "disabled" loaded_wf Hname Hfresh Hdef
              Hfalsy) as (He & _ & Hr & _).
  split_and!; try done. apply loaded_wf.
Defined.

(** C10 fails under a name that is already registered: the attempt is
    refused as a duplicate, whatever the [applyPoint], and the name is
    still found, with the policy registered first. *)
Lemma addPolicy_falsy_duplicate :
  matchJs (filename isAdminOff) = Some "isAdmin"
  ∧ applyPoint (module isAdminOff) = JNull
  ∧ truthy (applyPoint (module isAdminOff)) = false
  ∧ (addPolicy onPreHandler isAdminOff (loaded (K := list Arg))).1
    = Some (JsError "Trying to add a duplicate policy: isAdmin")
  ∧ rawPolicies (oData (addPolicy onPreHandler isAdminOff
                          (loaded (K := list Arg))).2) !! "isAdmin"
    = Some (module isAdmin).
Proof. by vm_compute. Qed.

Lemma handler_skips_unregistered_names_witness :
  registry_wf (oData (loaded (K := list Arg)))
  ∧ ("__proto__" ∉ names (oData (loaded (K := list Arg))))
  ∧ Forall (λ s, (s ∉ names (oData (loaded (K := list Arg))))
                 ∧ (s ∉ objectPrototypeKeys)) ["isOwner"]
  ∧ handler arrayKey onPreHandler
      {| payload := "GET /"; routePolicies := Some [EString "isOwner"];
         serverDefaultApplyPoint := onPreHandler |} loaded
    = (RunPolicies [], loaded)
  ∧ (runPolicies [] "GET /" freshReply).2
    = {| _replied := true; sent := [Continue] |}.
Proof.
  assert ("__proto__" ∉ names (oData (loaded (K := list Arg)))) as Hproto
    by not_listed.
  assert (Forall (λ s, (s ∉ names (oData (loaded (K := list Arg))))
                       ∧ (s ∉ objectPrototypeKeys)) ["isOwner"])
    as Hl.
  { apply Forall_singleton. split; not_listed. }
  split_and!; [apply loaded_wf|done|done|..];
    by apply (handler_skips_unregistered_names arrayKey onPreHandler
                {| payload := "GET /"; routePolicies := Some [EString "isOwner"];
                   serverDefaultApplyPoint := onPreHandler |}
                loaded ["isOwner"] loaded_wf Hproto eq_refl Hl).
Defined.

Lemma handler_rejects_registered_name_witness :
  "rateLimit" ∈ names (oData (loaded (K := list Arg)))
  ∧ handler arrayKey onRequest
      {| payload := "GET /"; routePolicies := Some [EString "rateLimit"];
         serverDefaultApplyPoint := onPreHandler |} loaded
    = (RepliedWith (notImplemented "Missing policy: rateLimit"), loaded)
  ∧ handler arrayKey onPreHandler
      {| payload := "GET /"; routePolicies := Some [EString "rateLimit"];
         serverDefaultApplyPoint := onPreHandler |} loaded
    = (RepliedWith (notImplemented "Missing policy: rateLimit"), loaded).
Proof.
  assert ("rateLimit" ∈ names (oData (loaded (K := list Arg)))) as Hin.
  { vm_compute. do 2 right. left. }
  split_and!; [done|..].
  - exact (handler_rejects_registered_name arrayKey onRequest
             {| payload := "GET /"; routePolicies := Some [EString "rateLimit"];
                serverDefaultApplyPoint := onPreHandler |}
             loaded "rateLimit" [] eq_refl Hin).
  - exact (handler_rejects_registered_name arrayKey onPreHandler
             {| payload := "GET /"; routePolicies := Some [EString "rateLimit"];
                serverDefaultApplyPoint := onPreHandler |}
             loaded "rateLimit" [] eq_refl Hin).
Defined.

Lemma defaultErrorHandler_calls_next_twice_witness :
  defaultErrorHandler ["A"; "B"; "C"]
    (<["A" := mkNext None true None]>
       (<["B" := mkNext None false (Some "no B")]>
          (<["C" := mkNext None false (Some "no C")]> ∅)))
  = ([mkNext None false (Some "no B"); mkNext None true None], false).
Proof.
  apply (defaultErrorHandler_calls_next_twice ["A"] ["C"] "B").
  - apply Forall_singleton. by exists (mkNext None true None).
  - done.
  - by right.
Defined.

Lemma runPolicies_second_call_runs_next_witness :
  calls (rejectingGroup "B" "no B" "GET /")
  = [mkNext None false (Some "no B"); mkNext None true None]
  ∧ (1, rejectingGroup "B" "no B" "GET /")
    ∈ (runPolicies [allow; rejectingGroup "B" "no B"; allow] "GET /"
         freshReply).1
  ∧ (2, allow "GET /")
    ∈ (runPolicies [allow; rejectingGroup "B" "no B"; allow] "GET /"
         freshReply).1
  ∧ ∃ more,
      sent (runPolicies [allow; rejectingGroup "B" "no B"; allow] "GET /"
              freshReply).2
      = Respond (forbidden (Some "no B")) :: more.
Proof.
  assert (calls (rejectingGroup "B" "no B" "GET /")
          = [mkNext None false (Some "no B"); mkNext None true None]) as Hcalls
    by by vm_compute.
  split; [done|].
  apply (runPolicies_second_call_runs_next [allow] [] (rejectingGroup "B" "no B")
           allow "GET /" freshReply (mkNext None false (Some "no B"))
           (mkNext None true None) (forbidden (Some "no B")));
    [done| |done|done|done|done].
  apply Forall_singleton. split; [done|]. by exists (mkNext None true None).
Defined.

Lemma handler_connected_once_witness :
  Forall (λ a, matchJs (filename a.2) ≠ Some "__proto__")
    ([(onPreHandler, rateLimit)] ++ (onPreHandler, isAdmin)
                                    :: [(onPreHandler, isLoggedIn)])
  ∧ effectivePoint (applyPoint (module isAdmin)) onPreHandler = Some onPreHandler
  ∧ exts (server (registrations [(onPreHandler, rateLimit)]
                    (initialState (K := list Arg)))) = [onRequest]
  ∧ exts (server (registrations
                    ([(onPreHandler, rateLimit)] ++ [(onPreHandler, isAdmin)])
                    (initialState (K := list Arg))))
    = [onRequest] ++ [onPreHandler]
  ∧ connections onPreHandler
      (server (registrations
                 ([(onPreHandler, rateLimit)] ++ (onPreHandler, isAdmin)
                                                 :: [(onPreHandler, isLoggedIn)])
                 (initialState (K := list Arg)))) = 1.
Proof.
  assert (Forall (λ a, matchJs (filename a.2) ≠ Some "__proto__")
            ([(onPreHandler, rateLimit)] ++ (onPreHandler, isAdmin)
                                            :: [(onPreHandler, isLoggedIn)]))
    as Hnames by (repeat constructor; by vm_compute).
  assert ("isAdmin" ∉ names (oData (registrations [(onPreHandler, rateLimit)]
                                      (initialState (K := list Arg)))))
    as Hfresh by not_listed.
  destruct (handler_connected_once (K := list Arg) [(onPreHandler, rateLimit)]
              [(onPreHandler, isLoggedIn)] onPreHandler isAdmin "isAdmin"
              onPreHandler Hnames eq_refl Hfresh eq_refl (or_introl eq_refl)
              eq_refl) as (_ & _ & _ & He & _ & Hc).
  split_and!; [done|done|done|exact He|exact Hc].
Defined.

Lemma reset_clears_witness :
  (loadPolicies {| defaultApplyPoint := None;
                   policyDirectory := [isAdmin; isLoggedIn; rateLimit] |}
     (reset (loaded (K := list Arg)))).1 = None
  ∧ "isAdmin" ∈ names (oData (loadPolicies
                                {| defaultApplyPoint := None;
                                   policyDirectory := [isAdmin; isLoggedIn; rateLimit] |}
                                (reset (loaded (K := list Arg)))).2).
Proof.
  destruct (reset_clears arrayKey (loaded (K := list Arg)))
    as (_ & _ & _ & _ & _ & Hload).
  destruct (Hload {| defaultApplyPoint := None;
                     policyDirectory := [isAdmin; isLoggedIn; rateLimit] |})
    as (Hok & Hreg & _).
  - vm_compute. repeat constructor; intros Hin;
      repeat (inversion Hin as [|? ? ? Hin']; subst; clear Hin;
              try rename Hin' into Hin).
  - by repeat constructor.
  - split; [done|]. apply (Hreg isAdmin); [left|done|by left].
Defined.

(** C9 fails for a call whose only argument is an error handler: there is
    no policy name at all, and yet no assertion fails. *)
Lemma parallel_handler_only :
  parallel [AFunction 0]
  = Ok {| applyPoint := JUndefined; runs := Some [];
          impl := AggregatePolicy [] (CustomErrorHandler 0) |}.
Proof. reflexivity. Qed.

Lemma parallel_assertions_witness :
  parallel [] = Throw "Requires at least one argument."
  ∧ parallel [AName "isAdmin"; AName "isAdmin"; AFunction 0]
    = Throw "Listed policies must be unique."
  ∧ parallel [AName "isAdmin"; AName "isAdmin"]
    = Throw "Listed policies must be unique.".
Proof.
  split_and!.
  - by apply (parallel_assertions []).
  - apply (parallel_assertions [AName "isAdmin"; AName "isAdmin"; AFunction 0]);
      [done|].
    simpl. intros Hnd. apply NoDup_cons in Hnd as [Hnot _]. apply Hnot. left.
  - apply (parallel_assertions [AName "isAdmin"; AName "isAdmin"]); [done|].
    simpl. intros Hnd. apply NoDup_cons in Hnd as [Hnot _]. apply Hnot. left.
Defined.

Lemma handler_no_policies_witness :
  handler arrayKey onPreHandler
    {| payload := "GET /"; routePolicies := None;
       serverDefaultApplyPoint := onPreHandler |} loaded
  = (Continued, loaded).
Proof.
  exact (handler_no_policies arrayKey onPreHandler
           {| payload := "GET /"; routePolicies := None;
              serverDefaultApplyPoint := onPreHandler |} loaded eq_refl).
Defined.

Lemma defaultErrorHandler_all_continue_witness :
  defaultErrorHandler ["A"; "B"]
    (<["A" := mkNext None true None]> (<["B" := mkNext None true None]> ∅))
  = ([mkNext None true None], false).
Proof.
  apply defaultErrorHandler_all_continue.
  repeat constructor; by exists (mkNext None true None).
Defined.

Lemma reachable_names_in_one_bucket_witness :
  reachable arrayKey loaded
  ∧ ("__proto__" ∉ names (oData (loaded (K := list Arg))))
  ∧ "rateLimit" ∈ names (oData (loaded (K := list Arg)))
  ∧ ∃ p, AName "rateLimit" ∈ keys (bucket (oData (loaded (K := list Arg))) p)
         ∧ ∀ q, AName "rateLimit"
                ∈ keys (bucket (oData (loaded (K := list Arg))) q) → q = p.
Proof.
  assert (reachable arrayKey loaded) as Hst
    by apply loadPolicies_reachable, reach_init.
  assert ("__proto__" ∉ names (oData (loaded (K := list Arg)))) as Hproto
    by not_listed.
  assert ("rateLimit" ∈ names (oData (loaded (K := list Arg)))) as Hin.
  { vm_compute. do 2 right. left. }
  split_and!; [done|done|done|].
  exact (reachable_names_in_one_bucket arrayKey loaded "rateLimit" Hst Hproto Hin).
Defined.

Lemma addPolicy_invalid_applyPoint_witness :
  matchJs (filename broken) = Some "broken"
  ∧ ("broken" ∉ names (oData (loaded (K := list Arg))))
  ∧ applyPoint (module broken) = JStr "onStart"
  ∧ hasValidApplyPoint (module broken) = false
  ∧ (addPolicy onPreHandler broken (loaded (K := list Arg))).1
    = Some (JsError "Trying to set incorrect applyPoint for the policy: onStart")
  ∧ oData (addPolicy onPreHandler broken (loaded (K := list Arg))).2
    = oData (loaded (K := list Arg)).
Proof.
  assert (matchJs (filename broken) = Some "broken") as Hname by by vm_compute.
  assert ("broken" ∉ names (oData (loaded (K := list Arg)))) as Hfresh
    by not_listed.
  assert (hasValidApplyPoint (module broken) = false) as Hbad by by vm_compute.
  destruct (addPolicy_invalid_applyPoint onPreHandler broken
              (loaded (K := list Arg)) "broken" "onStart" Hname Hfresh eq_refl
              Hbad) as (He & Hd & _).
  by split_and!.
Defined.

Lemma handler_dispatches_aggregate_witness :
  cache_coherent arrayKey loaded
  ∧ aggregateApplyPoint (oData (loaded (K := list Arg)))
      [AName "isAdmin"; AName "isLoggedIn"] = Ok onPreHandler
  ∧ (handler arrayKey onPreHandler
       {| payload := "GET /";
          routePolicies := Some [EArray [AName "isAdmin"; AName "isLoggedIn"]];
          serverDefaultApplyPoint := onPreHandler |} loaded).1
    = RunPolicies
        [{| applyPoint := JUndefined;
            runs := Some [AName "isAdmin"; AName "isLoggedIn"];
            impl := AggregatePolicy [AName "isAdmin"; AName "isLoggedIn"]
                      DefaultErrorHandler |}]
  ∧ (handler arrayKey onRequest
       {| payload := "GET /";
          routePolicies := Some [EArray [AName "isAdmin"; AName "isLoggedIn"]];
          serverDefaultApplyPoint := onPreHandler |} loaded).1
    = RunPolicies [].
Proof.
  assert (cache_coherent arrayKey (loaded (K := list Arg))) as Hc.
  { intros l ap. by vm_compute. }
  assert (aggregateApplyPoint (oData (loaded (K := list Arg)))
            [AName "isAdmin"; AName "isLoggedIn"] = Ok onPreHandler) as Hres
    by by vm_compute.
  split_and!; [done|done|..].
  - exact (handler_dispatches_aggregate arrayKey onPreHandler onPreHandler
             {| payload := "GET /";
                routePolicies := Some [EArray [AName "isAdmin"; AName "isLoggedIn"]];
                serverDefaultApplyPoint := onPreHandler |}
             loaded _ Hc Hres eq_refl).
  - exact (handler_dispatches_aggregate arrayKey onRequest onPreHandler
             {| payload := "GET /";
                routePolicies := Some [EArray [AName "isAdmin"; AName "isLoggedIn"]];
                serverDefaultApplyPoint := onPreHandler |}
             loaded _ Hc Hres eq_refl).
Defined.

Lemma runPolicies_all_continue_witness :
  (runPolicies [allow; allow] "GET /" freshReply).1.*1 = [0; 1]
  ∧ (runPolicies [allow; allow] "GET /" freshReply).2
    = {| _replied := true; sent := [Continue] |}.
Proof.
  apply (runPolicies_all_continue [allow; allow] "GET /" freshReply); [done|].
  repeat constructor; by exists (mkNext None true None).
Defined.

Lemma aggregateApplyPoint_Ok_iff_witness :
  registry_wf (oData (loaded (K := list Arg)))
  ∧ (aggregateApplyPoint (oData (loaded (K := list Arg)))
       [AName "isLoggedIn"; AName "isAdmin"] = Ok onPreHandler
     ↔ [AName "isLoggedIn"; AName "isAdmin"] ≠ []
       ∧ NoDup [AName "isLoggedIn"; AName "isAdmin"]
       ∧ ∀ x, x ∈ [AName "isLoggedIn"; AName "isAdmin"] →
              x ∈ keys (bucket (oData (loaded (K := list Arg))) onPreHandler)).
Proof.
  split; [apply loaded_wf|].
  exact (aggregateApplyPoint_Ok_iff (oData (loaded (K := list Arg)))
           [AName "isLoggedIn"; AName "isAdmin"] onPreHandler loaded_wf).
Defined.

Lemma aggregateApplyPoint_not_loaded_witness :
  (∃ x, x ∈ [AName "isAdmin"; AName "isOwner"]
        ∧ x ∉ AName <$> names (oData (loaded (K := list Arg))))
  ∧ aggregateApplyPoint (oData (loaded (K := list Arg)))
      [AName "isAdmin"; AName "isOwner"]
    = Throw "Requires loaded policy names.".
Proof.
  assert (∃ x, x ∈ [AName "isAdmin"; AName "isOwner"]
               ∧ x ∉ AName <$> names (oData (loaded (K := list Arg)))) as Hbad.
  { exists (AName "isOwner"). split; [right; left|]. not_listed. }
  split; [done|].
  apply (aggregateApplyPoint_not_loaded (oData (loaded (K := list Arg)))
           [AName "isAdmin"; AName "isOwner"]); [done|by right].
Defined.

Lemma aggregateApplyPoint_mixed_witness :
  registry_wf (oData (loaded (K := list Arg)))
  ∧ NoDup [AName "isAdmin"; AName "rateLimit"]
  ∧ AName "isAdmin" ∈ keys (bucket (oData (loaded (K := list Arg))) onPreHandler)
  ∧ AName "rateLimit" ∈ keys (bucket (oData (loaded (K := list Arg))) onRequest)
  ∧ aggregateApplyPoint (oData (loaded (K := list Arg)))
      [AName "isAdmin"; AName "rateLimit"]
    = Throw "Aggregate policies must be from same applyPoint.".
Proof.
  assert (NoDup [AName "isAdmin"; AName "rateLimit"]) as Hnd.
  { apply NoDup_cons. split; [not_listed|]. apply NoDup_singleton. }
  assert (AName "isAdmin"
          ∈ keys (bucket (oData (loaded (K := list Arg))) onPreHandler)) as Hx.
  { apply elem_of_keys. vm_compute. by eexists. }
  assert (AName "rateLimit"
          ∈ keys (bucket (oData (loaded (K := list Arg))) onRequest)) as Hy.
  { apply elem_of_keys. vm_compute. by eexists. }
  split_and!; [apply loaded_wf|done|done|done|].
  apply (aggregateApplyPoint_mixed (oData (loaded (K := list Arg)))
           [AName "isAdmin"; AName "rateLimit"]
           (AName "isAdmin") (AName "rateLimit") onPreHandler onRequest
           loaded_wf Hnd); [|left|right; left|done|done|done].
  intros z Hz. apply elem_of_cons in Hz as [->|Hz].
  { vm_compute. left. }
  apply list_elem_of_singleton in Hz as ->. vm_compute. do 2 right. left.
Defined.

Lemma determine_after_addPolicy_witness :
  (determineAggregateApplyPoint arrayKey [AName "isAdmin"] loaded).1
  = Ok onPreHandler
  ∧ (determineAggregateApplyPoint arrayKey [AName "isAdmin"]
       (addPolicy onRequest disabled
          (determineAggregateApplyPoint arrayKey [AName "isAdmin"] loaded).2).2).1
    = Ok onPreHandler.
Proof.
  assert ((determineAggregateApplyPoint arrayKey [AName "isAdmin"] loaded).1
          = Ok onPreHandler) as Hres by by vm_compute.
  split; [done|].
  exact (determine_after_addPolicy arrayKey [AName "isAdmin"] loaded onPreHandler
           onRequest disabled Hres).
Defined.

Lemma handler_malformed_entry_witness :
  classifyAll arrayKey onPreHandler
    {| payload := "GET /";
       routePolicies := Some [ENull; EOther; EString "isAdmin"];
       serverDefaultApplyPoint := onPreHandler |}
    [ENull] (Collecting []) loaded = (Collecting [], loaded)
  ∧ handler arrayKey onPreHandler
      {| payload := "GET /";
         routePolicies := Some [ENull; EOther; EString "isAdmin"];
         serverDefaultApplyPoint := onPreHandler |} loaded
    = (RepliedWith
         (badImplementation "Policy not specified by name or by function."),
       loaded).
Proof.
  split; [done|].
  exact (handler_malformed_entry arrayKey onPreHandler
           {| payload := "GET /";
              routePolicies := Some [ENull; EOther; EString "isAdmin"];
              serverDefaultApplyPoint := onPreHandler |}
           loaded loaded [ENull] [EString "isAdmin"] [] eq_refl eq_refl).
Defined.

Lemma handler_inline_functions_witness :
  handler arrayKey onRequest
    {| payload := "GET /";
       routePolicies :=
         Some (EFunction <$> [policyAt JUndefined allow;
                              policyAt (JStr "onRequest") (deny "no");
                              policyAt JNull allow]);
       serverDefaultApplyPoint := onPreHandler |} loaded
  = (RunPolicies [policyAt (JStr "onRequest") (deny "no")], loaded)
  ∧ handler arrayKey onPreHandler
      {| payload := "GET /";
         routePolicies :=
           Some (EFunction <$> [policyAt JUndefined allow;
                                policyAt (JStr "onRequest") (deny "no");
                                policyAt JNull allow]);
         serverDefaultApplyPoint := onPreHandler |} loaded
    = (RunPolicies [policyAt JUndefined allow; policyAt JNull allow], loaded).
Proof.
  assert (Forall (λ f, hasValidApplyPoint f = true
                       ∧ (runs f = None ∨ truthy (applyPoint f) = true))
            [policyAt JUndefined allow; policyAt (JStr "onRequest") (deny "no");
             policyAt JNull allow]) as Hfs.
  { repeat constructor. }
  split.
  - exact (proj1 (handler_inline_functions arrayKey onRequest
                    {| payload := "GET /";
                       routePolicies :=
                         Some (EFunction <$> [policyAt JUndefined allow;
                                              policyAt (JStr "onRequest") (deny "no");
                                              policyAt JNull allow]);
                       serverDefaultApplyPoint := onPreHandler |}
                    loaded _ eq_refl Hfs)).
  - exact (proj1 (handler_inline_functions arrayKey onPreHandler
                    {| payload := "GET /";
                       routePolicies :=
                         Some (EFunction <$> [policyAt JUndefined allow;
                                              policyAt (JStr "onRequest") (deny "no");
                                              policyAt JNull allow]);
                       serverDefaultApplyPoint := onPreHandler |}
                    loaded _ eq_refl Hfs)).
Defined.




Lemma runPolicies_error_aborts_witness :
  (1, failing (JsError "backend down") "GET /")
  ∈ (runPolicies [allow; failing (JsError "backend down"); deny "no"]
       "GET /" freshReply).1
  ∧ (runPolicies [allow; failing (JsError "backend down"); deny "no"]
       "GET /" freshReply).1.*1 = [0; 1]
  ∧ (runPolicies [allow; failing (JsError "backend down"); deny "no"]
       "GET /" freshReply).2
    = {| _replied := true; sent := [Respond (JsError "backend down")] |}
  ∧ (runPolicies [allow; deny "no"; allow] "GET /" freshReply).1.*1 = [0; 1]
  ∧ (runPolicies [allow; deny "no"; allow] "GET /" freshReply).2
    = {| _replied := true; sent := [Respond (forbidden (Some "no"))] |}.
Proof.
  assert ((1, failing (JsError "backend down") "GET /")
          ∈ (runPolicies [allow; failing (JsError "backend down"); deny "no"]
               "GET /" freshReply).1) as Hin.
  { vm_compute. right. left. }
  assert ((1, deny "no" "GET /")
          ∈ (runPolicies [allow; deny "no"; allow] "GET /" freshReply).1)
    as Hin'.
  { vm_compute. right. left. }
  destruct (runPolicies_error_aborts
              [allow; failing (JsError "backend down"); deny "no"] "GET /"
              freshReply 1 (failing (JsError "backend down") "GET /")
              (mkNext (Some (JsError "backend down")) true None)
              (JsError "backend down")) as [Hpos Hsent];
    [done|vm_compute; repeat constructor|done|done|done|].
  destruct (runPolicies_error_aborts [allow; deny "no"; allow] "GET /"
              freshReply 1 (deny "no" "GET /")
              (mkNext None false (Some "no")) (forbidden (Some "no")))
    as [Hpos' Hsent'];
    [done|vm_compute; repeat constructor|done|done|done|].
  by split_and!.
Defined.

Lemma runPolicies_pending_witness :
  (1, never "GET /") ∈ (runPolicies [allow; never; allow] "GET /" freshReply).1
  ∧ (runPolicies [allow; never; allow] "GET /" freshReply).1.*1 = [0; 1]
  ∧ (runPolicies [allow; never; allow] "GET /" freshReply).2 = freshReply.
Proof.
  assert ((1, never "GET /")
          ∈ (runPolicies [allow; never; allow] "GET /" freshReply).1) as Hin.
  { vm_compute. right. left. }
  split; [done|].
  apply (runPolicies_pending [allow; never; allow] "GET /" freshReply
           1 (never "GET /")); [|done|done].
  vm_compute. repeat constructor.
Defined.

Lemma addPolicy_registers_at_witness :
  "rateLimit" ≠ "__proto__"
  ∧ ("__proto__" ∉ names (oData (initialState (K := list Arg))))
  ∧ matchJs (filename rateLimit) = Some "rateLimit"
  ∧ ("rateLimit" ∉ names (oData (initialState (K := list Arg))))
  ∧ hasValidApplyPoint (module rateLimit) = true
  ∧ ∃ ap, effectivePoint (applyPoint (module rateLimit)) onPreHandler = Some ap
      ∧ (addPolicy onPreHandler rateLimit (initialState (K := list Arg))).1 = None
      ∧ bucket (oData (addPolicy onPreHandler rateLimit
                         (initialState (K := list Arg))).2) ap !! "rateLimit"
        = Some (module rateLimit).
Proof.
  assert ("rateLimit" ≠ "__proto__") as Hne by done.
  assert ("__proto__" ∉ names (oData (initialState (K := list Arg)))) as Hproto
    by not_listed.
  assert (matchJs (filename rateLimit) = Some "rateLimit") as Hname
    by by vm_compute.
  assert ("rateLimit" ∉ names (oData (initialState (K := list Arg)))) as Hfresh
    by not_listed.
  assert (hasValidApplyPoint (module rateLimit) = true) as Hvalid
    by by vm_compute.
  destruct (addPolicy_registers_at onPreHandler rateLimit
              (initialState (K := list Arg)) "rateLimit" Hne Hproto Hname Hfresh
              Hvalid (or_intror eq_refl))
    as (ap & Hap & Hok & _ & _ & Hb & _).
  split_and!; [done|done|done|done|done|]. by exists ap.
Defined.

Lemma registered_policy_stays_witness :
  registry_wf (oData (loaded (K := list Arg)))
  ∧ rawPolicies (oData (loaded (K := list Arg))) !! "isAdmin"
    = Some (module isAdmin)
  ∧ bucket (oData (loaded (K := list Arg))) onPreHandler !! "isAdmin"
    = Some (module isAdmin)
  ∧ rawPolicies (oData (registrations
                          [(onRequest, {| filename := "isAdmin.js";
                                          module := module rateLimit |});
                           (onRequest, disabled)]
                          (loaded (K := list Arg)))) !! "isAdmin"
    = Some (module isAdmin).
Proof.
  assert (rawPolicies (oData (loaded (K := list Arg))) !! "isAdmin"
          = Some (module isAdmin)) as Hr by by vm_compute.
  assert (bucket (oData (loaded (K := list Arg))) onPreHandler !! "isAdmin"
          = Some (module isAdmin)) as Hb by by vm_compute.
  split_and!; [apply loaded_wf|done|done|].
  apply (registered_policy_stays (loaded (K := list Arg)) "isAdmin"
           (module isAdmin) onPreHandler loaded_wf Hr Hb).
Defined.

Lemma loadPolicies_first_error_witness :
  loadPolicies {| defaultApplyPoint := None; policyDirectory := [isAdmin] |}
    (initialState (K := list Arg))
  = (None, (addPolicy onPreHandler isAdmin (initialState (K := list Arg))).2)
  ∧ (loadPolicies {| defaultApplyPoint := None;
                     policyDirectory := [isAdmin; broken; rateLimit] |}
       (initialState (K := list Arg))).1
    = Some (JsError "Trying to set incorrect applyPoint for the policy: onStart")
  ∧ names (oData (loadPolicies
                    {| defaultApplyPoint := None;
                       policyDirectory := [isAdmin; broken; rateLimit] |}
                    (initialState (K := list Arg))).2) = ["isAdmin"].
Proof.
  assert (loadPolicies {| defaultApplyPoint := None;
                          policyDirectory := [isAdmin] |}
            (initialState (K := list Arg))
          = (None, (addPolicy onPreHandler isAdmin
                      (initialState (K := list Arg))).2)) as Hpre by done.
  destruct (loadPolicies_first_error
              {| defaultApplyPoint := None;
                 policyDirectory := [isAdmin; broken; rateLimit] |}
              (initialState (K := list Arg)) _ [isAdmin] [rateLimit] broken
              (JsError "Trying to set incorrect applyPoint for the policy: onStart")
              eq_refl Hpre eq_refl) as (He & Hd & _).
  split_and!; [done|done|]. by rewrite Hd.
Defined.

Lemma loadPolicies_without_js_witness :
  Forall (λ f, matchJs (filename f) = None) [readme]
  ∧ loadPolicies {| defaultApplyPoint := None; policyDirectory := [readme] |}
      (loaded (K := list Arg)) = (None, loaded).
Proof.
  assert (Forall (λ f, matchJs (filename f) = None) [readme]) as Hno
    by by repeat constructor.
  split; [done|].
  exact (loadPolicies_without_js
           {| defaultApplyPoint := None; policyDirectory := [readme] |}
           (loaded (K := list Arg)) Hno).
Defined.

Lemma register_invalid_default_witness :
  register {| pluginDefaultApplyPoint := JStr "onStart";
              pluginPolicyDirectory := Some [isAdmin] |}
    (initialState (K := list Arg))
  = Throw "Specified invalid defaultApplyPoint: onStart".
Proof.
  apply (register_invalid_default
           {| pluginDefaultApplyPoint := JStr "onStart";
              pluginPolicyDirectory := Some [isAdmin] |} _ "onStart");
    [done|done|].
  by intros [].
Defined.

Lemma register_loads_at_default_witness :
  register {| pluginDefaultApplyPoint := JStr "onPostAuth";
              pluginPolicyDirectory := Some [isAdmin; rateLimit] |}
    (initialState (K := list Arg))
  = Ok (onPostAuth,
        (None,
         (loadPolicies {| defaultApplyPoint := Some onPostAuth;
                          policyDirectory := [isAdmin; rateLimit] |}
            (initialState (K := list Arg))).2))
  ∧ bucket (oData (loadPolicies {| defaultApplyPoint := Some onPostAuth;
                                   policyDirectory := [isAdmin; rateLimit] |}
                     (initialState (K := list Arg))).2) onPostAuth !! "isAdmin"
    = Some (module isAdmin).
Proof.
  assert (register {| pluginDefaultApplyPoint := JStr "onPostAuth";
                      pluginPolicyDirectory := Some [isAdmin; rateLimit] |}
            (initialState (K := list Arg))
          = Ok (onPostAuth,
                (None,
                 (loadPolicies {| defaultApplyPoint := Some onPostAuth;
                                  policyDirectory := [isAdmin; rateLimit] |}
                    (initialState (K := list Arg))).2))) as Hreg by done.
  split; [done|].
  assert (matchJs (filename isAdmin) = Some "isAdmin") as Hname by by vm_compute.
  assert ("isAdmin" ∉ names (oData (initialState (K := list Arg)))) as Hfresh
    by not_listed.
  eapply (register_loads_at_default
            {| pluginDefaultApplyPoint := JStr "onPostAuth";
               pluginPolicyDirectory := Some [isAdmin; rateLimit] |}
            (initialState (K := list Arg)) _ onPostAuth [isAdmin; rateLimit]
            isAdmin "isAdmin" emptyData_wf Hreg eq_refl); [left|done|done|done].
Defined.

Lemma defaultErrorHandler_missing_result_witness :
  ("B" ∉ objectPrototypeKeys)
  ∧ defaultErrorHandler ["A"; "B"; "C"]
      (<["A" := mkNext None true None]>
         (<["C" := mkNext None false (Some "no C")]> ∅))
    = ([], true).
Proof.
  assert ("B" ∉ objectPrototypeKeys) as Hproto by not_listed.
  split; [done|].
  apply (defaultErrorHandler_missing_result ["A"] ["C"] "B").
  - apply Forall_singleton. by exists (mkNext None true None).
  - done.
  - done.
  - done.
Defined.

Lemma reload_connects_again_witness :
  Forall (λ a, matchJs (filename a.2) ≠ Some "__proto__")
    [(onPreHandler, isAdmin); (onPreHandler, isLoggedIn)]
  ∧ connections onPreHandler (server (loaded (K := list Arg))) = 1
  ∧ connections onPreHandler
      (server (addPolicy onPreHandler isAdmin
                 (reset (loaded (K := list Arg)))).2) = 1 + 1
  ∧ connections onPreHandler
      (server (registrations [(onPreHandler, isAdmin); (onPreHandler, isLoggedIn)]
                 (reset (loaded (K := list Arg))))) = 2.
Proof.
  assert (Forall (λ a, matchJs (filename a.2) ≠ Some "__proto__")
            [(onPreHandler, isAdmin); (onPreHandler, isLoggedIn)]) as Hnames
    by (repeat constructor; by vm_compute).
  destruct (reload_connects_again (loaded (K := list Arg))
              [(onPreHandler, isAdmin); (onPreHandler, isLoggedIn)]
              onPreHandler isAdmin "isAdmin" onPreHandler Hnames eq_refl eq_refl
              (or_introl eq_refl) eq_refl) as [Hone Hall].
  split_and!; [done|done|exact Hone|].
  rewrite Hall. done.
Defined.
